(** * A shallow embedding of hive-mind-solver (src/main.rs)

    The program reads two boards, each with one player token, and searches
    for a sequence of moves that takes both tokens to their exits on the same
    move.  This file models the data types, the tile lookup, the movement
    resolver (with ice sliding and teleports), the recursive search [solve],
    and the parsers, then proves the properties listed in the spec.

    Modelling conventions.
    - [isize] values are [Z]; [usize] values are [nat] (or [Z] when they come
      from an [as usize] cast, written out as reduction modulo [2^64]).
    - [&str] is a Rocq [string], i.e. a list of bytes.  Since the only
      characters the code tests for ('x', 'R', '\n', '\r', the tile glyphs)
      are ASCII, and ASCII bytes never occur inside a multi-byte UTF-8
      sequence, the byte offsets of [char_indices] are the list indices here.
    - Code that may panic or diverge returns an [Exec]: [Done] for a normal
      return, [Panic] for a panic ([panic!], [expect], [unwrap], [unimplemented!],
      out-of-bounds indexing), and [NoFuel] when the recursion bound given as
      [fuel] is exhausted.  [println!] tracing is not modelled. *)

From Stdlib Require Import ZArith Lia List String Ascii Bool Permutation.
Import ListNotations.
Open Scope Z_scope.

(** ** Execution results *)

Inductive Exec (A : Type) : Type :=
| Done (a : A)
| Panic (msg : string)
| NoFuel.
Arguments Done {A} a.
Arguments Panic {A} msg.
Arguments NoFuel {A}.

Definition bind {A B : Type} (m : Exec A) (k : A -> Exec B) : Exec B :=
  match m with
  | Done a => k a
  | Panic msg => Panic msg
  | NoFuel => NoFuel
  end.

Notation "x <- m ;; k" := (bind m (fun x => k))
  (at level 61, m at next level, right associativity).

(** [enum Error] and the crate's [type Result<T> = Result<T, Error>]. *)
Inductive Error := InputEmpty | NoExit | NoSolution | NoPlayer.

Inductive Result (A : Type) : Type :=
| Ok (a : A)
| Err (e : Error).
Arguments Ok {A} a.
Arguments Err {A} e.

(** ** Data model *)

(** [enum Tile]; kept in a module so that [Tile::None] does not shadow
    [option]'s [None]. *)
Module Tile.
Inductive t := None | Wall | Teleport | Pit | Ice | Exit.
Definition eqb (a b : t) : bool :=
  match a, b with
  | None, None | Wall, Wall | Teleport, Teleport
  | Pit, Pit | Ice, Ice | Exit, Exit => true
  | _, _ => false
  end.
End Tile.

Record Board := mkBoard { tiles : list (list Tile.t); exit : nat }.

Record Player := mkPlayer { x : Z; y : Z }.

Definition player_eqb (p q : Player) : bool := (x p =? x q) && (y p =? y q).

Inductive Dir := Up | Down | Right | Left.

Inductive State := Success | Dead | Just (p : Player).

(** [v.get(i)] for a [usize] index [i]. *)
Definition vec_get {A : Type} (l : list A) (i : Z) : option A :=
  if (0 <=? i) && (i <? Z.of_nat (List.length l)) then nth_error l (Z.to_nat i)
  else None.

(** [z as usize] for an [isize] [z]: two's complement reinterpretation. *)
Definition usize_of_isize (z : Z) : Z := z mod 2 ^ 64.

(** ** [Board::get_tile] *)
Definition get_tile (b : Board) (p : Player) : Exec Tile.t :=
  if y p =? -1 then
    if (0 <=? x p) && (x p =? Z.of_nat (exit b)) then Done Tile.Exit
    else Done Tile.Wall
  else if y p =? Z.of_nat (List.length (tiles b)) then Done Tile.Wall
  else if x p =? -1 then Done Tile.Wall
  else match tiles b with
       | [] => Panic "index out of bounds"   (* self.tiles[0] *)
       | row0 :: _ =>
           if x p =? Z.of_nat (List.length row0) then Done Tile.Wall
           else match vec_get (tiles b) (usize_of_isize (y p)) with
                | Some r =>
                    match vec_get r (usize_of_isize (x p)) with
                    | Some t => Done t
                    | None => Panic "x and y should be positive"
                    end
                | None => Panic "x and y should be positive"
                end
       end.

(** ** [Player::hop] *)
Definition hop (p : Player) (d : Dir) : Player :=
  match d with
  | Up => mkPlayer (x p) (y p - 1)
  | Down => mkPlayer (x p) (y p + 1)
  | Right => mkPlayer (x p + 1) (y p)
  | Left => mkPlayer (x p - 1) (y p)
  end.

(** [row.iter().enumerate().find_map(...)] of [Player::teleport]: the first
    column [x] (counting from [i]) holding a teleport that is not [self]. *)
Fixpoint teleport_in_row (self : Player) (yi : nat) (row : list Tile.t) (i : nat)
  : option Player :=
  match row with
  | [] => None
  | t :: row' =>
      if Tile.eqb t Tile.Teleport
         && negb ((Z.of_nat i =? usize_of_isize (x self))
                  && (Z.of_nat yi =? usize_of_isize (y self)))
      then Some (mkPlayer (Z.of_nat i) (Z.of_nat yi))
      else teleport_in_row self yi row' (S i)
  end.

Fixpoint teleport_in_rows (self : Player) (rows : list (list Tile.t)) (j : nat)
  : option Player :=
  match rows with
  | [] => None
  | row :: rows' =>
      match teleport_in_row self j row 0 with
      | Some p => Some p
      | None => teleport_in_rows self rows' (S j)
      end
  end.

(** ** [Player::teleport] *)
Definition teleport (self : Player) (b : Board) : Exec Player :=
  t <- get_tile b self ;;
  match t with
  | Tile.Teleport =>
      match teleport_in_rows self (tiles b) 0 with
      | Some p => Done p
      | None => Panic "No second teleport tile found"
      end
  | _ => Panic "Tried to get teleport target of non-teleport tile"
  end.

(** ** [State::from], with [Player::slide] inlined in the [Ice] case.
    Each call consumes one unit of [fuel]. *)
Fixpoint state_from (fuel : nat) (dir : Dir) (from to : Player) (board : Board)
  : Exec State :=
  match fuel with
  | O => NoFuel
  | S fuel' =>
      tile <- get_tile board to ;;
      match tile with
      | Tile.None => Done (Just to)
      | Tile.Wall => Done (Just from)
      | Tile.Teleport => p <- teleport to board ;; Done (Just p)
      | Tile.Ice => state_from fuel' dir to (hop to dir) board  (* to.slide(dir, board) *)
      | Tile.Pit => Done Dead
      | Tile.Exit => Done Success
      end
  end.

(** [Player::slide] *)
Definition slide (fuel : nat) (self : Player) (d : Dir) (b : Board) : Exec State :=
  state_from fuel d self (hop self d) b.

(** A bound on the number of consecutive ice tiles along a straight line;
    [slide_bound] is enough fuel for any call of [apply] (see
    [apply_fuel_enough] below). *)
Definition max_row_len (b : Board) : nat := fold_right Nat.max 0%nat (map (@List.length _) (tiles b)).

Definition slide_bound (b : Board) : nat := S (List.length (tiles b) + max_row_len b).

(** [fn apply] *)
Definition apply (d : Dir) (b : Board) (p : Player) : Exec State :=
  state_from (slide_bound b) d p (hop p d) b.

(** ** [fn solve]

    The body of the [find_map] closure is split in two: [step] computes both
    moves, the new history and the outcome of the [match], and [solve] acts on
    that outcome.  The visited [HashSet] is a list used as a set: [solve] only
    tests membership and inserts elements that are absent, and each call
    receives its own copy ([visited.clone()]) because values are immutable. *)

Definition pair_eqb (a b : Player * Player) : bool :=
  player_eqb (fst a) (fst b) && player_eqb (snd a) (snd b).

Definition contains (visited : list (Player * Player)) (e : Player * Player) : bool :=
  existsb (pair_eqb e) visited.

(** What the closure does after computing both moves. *)
Inductive Child :=
| Found (h : list Dir)                     (* [Some(new_hist)] *)
| Backtrack                                (* [None] *)
| Descend (np1 np2 : Player) (vis : list (Player * Player)) (hist : list Dir).
                                           (* [solve(b1, np1, b2, np2, new_vis, new_hist)] *)

Definition step (b1 : Board) (p1 : Player) (b2 : Board) (p2 : Player)
    (visited : list (Player * Player)) (history : list Dir) (dir : Dir) : Exec Child :=
  new_p1 <- apply dir b1 p1 ;;
  new_p2 <- apply dir b2 p2 ;;
  let new_hist := history ++ [dir] in
  match new_p1, new_p2 with
  | Success, Success => Done (Found new_hist)
  | Just np1, Just np2 =>
      if contains visited (np1, np2) then Done Backtrack
      else Done (Descend np1 np2 ((np1, np2) :: visited) new_hist)
  | _, _ => Done Backtrack
  end.

(** [[Dir::Up, Dir::Down, Dir::Right, Dir::Left]] *)
Definition dirs : list Dir := [Up; Down; Right; Left].

(** [Iterator::find_map] with a closure that may panic. *)
Fixpoint find_map {A B : Type} (f : A -> Exec (option B)) (l : list A) : Exec (option B) :=
  match l with
  | [] => Done None
  | a :: l' =>
      r <- f a ;;
      match r with
      | Some b => Done (Some b)
      | None => find_map f l'
      end
  end.

(** [fuel] bounds the depth of the recursion. *)
Fixpoint solve (fuel : nat) (b1 : Board) (p1 : Player) (b2 : Board) (p2 : Player)
    (visited : list (Player * Player)) (history : list Dir) : Exec (option (list Dir)) :=
  match fuel with
  | O => NoFuel
  | S fuel' =>
      find_map (fun dir =>
        c <- step b1 p1 b2 p2 visited history dir ;;
        match c with
        | Found h => Done (Some h)
        | Backtrack => Done None
        | Descend np1 np2 vis hist => solve fuel' b1 np1 b2 np2 vis hist
        end) dirs
  end.

(** ** Strings: [str::lines], [str::split_once], [char_indices] *)

Definition nl : ascii := "010".
Definition cr : ascii := "013".

(** [str::lines]: split after each ['\n'], drop one trailing ['\n'] or
    ["\r\n"] from each piece; no empty piece after a final ['\n'].
    [cur] holds the current piece reversed. *)
Fixpoint lines_aux (s : list ascii) (cur : list ascii) : list (list ascii) :=
  match s with
  | [] => match cur with [] => [] | _ => [rev cur] end
  | c :: s' =>
      if Ascii.eqb c nl then
        (match cur with
         | c0 :: cur' => if Ascii.eqb c0 cr then rev cur' else rev cur
         | [] => []
         end) :: lines_aux s' []
      else lines_aux s' (c :: cur)
  end.

Definition lines (s : string) : list (list ascii) := lines_aux (list_ascii_of_string s) [].

(** [input.split_once("\n\n")]: split around the first occurrence. *)
Fixpoint split_once_nn (s : string) : option (string * string) :=
  match s with
  | EmptyString => None
  | String c s' =>
      let later := match split_once_nn s' with
                   | Some (a, b) => Some (String c a, b)
                   | None => None
                   end in
      match s' with
      | String c' s'' =>
          if Ascii.eqb c nl && Ascii.eqb c' nl then Some (EmptyString, s'') else later
      | EmptyString => later
      end
  end.

(** [char_indices().find_map(|(i, c)| (c == target).then_some(i))], offset by [i]. *)
Fixpoint find_index (target : ascii) (l : list ascii) (i : nat) : option nat :=
  match l with
  | [] => None
  | c :: l' => if Ascii.eqb c target then Some i else find_index target l' (S i)
  end.

(** ** [Board::parse] and [Player::parse] *)

Definition parse_tile (c : ascii) : Exec Tile.t :=
  match c with
  | "."%char | "R"%char => Done Tile.None
  | "T"%char => Done Tile.Teleport
  | "P"%char => Done Tile.Pit
  | "I"%char => Done Tile.Ice
  | "W"%char => Done Tile.Wall
  | _ => Panic "not implemented"
  end.

(** [.map(f).collect()] with an [f] that may panic. *)
Fixpoint map_collect {A B : Type} (f : A -> Exec B) (l : list A) : Exec (list B) :=
  match l with
  | [] => Done []
  | a :: l' => b <- f a ;; bs <- map_collect f l' ;; Done (b :: bs)
  end.

Definition Board_parse (input : string) : Exec (Result Board) :=
  match lines input with
  | [] => Done (Err InputEmpty)
  | first :: rest =>
      match find_index "x" first 0 with
      | None => Done (Err NoExit)
      | Some e =>
          ts <- map_collect (map_collect parse_tile) rest ;;
          Done (Ok (mkBoard ts e))
      end
  end.

(** The rows after [skip(1)], enumerated from [j]. *)
Fixpoint find_player (rows : list (list ascii)) (j : nat) : option Player :=
  match rows with
  | [] => None
  | r :: rows' =>
      match find_index "R" r 0 with
      | Some i => Some (mkPlayer (Z.of_nat i) (Z.of_nat j))
      | None => find_player rows' (S j)
      end
  end.

Definition Player_parse (input : string) : Result Player :=
  match find_player (tl (lines input)) 0 with
  | Some p => Ok p
  | None => Err NoPlayer
  end.

(** ** [fn solve_puzzle]; [fuel] bounds the recursion depth of [solve]. *)
Definition solve_puzzle (fuel : nat) (input : string) : Exec (Result (list Dir)) :=
  match split_once_nn input with
  | None => Panic "Couldn't find second board"
  | Some (input1, input2) =>
      rb1 <- Board_parse input1 ;;
      match rb1 with
      | Err e => Done (Err e)
      | Ok b1 =>
          match Player_parse input1 with
          | Err e => Done (Err e)
          | Ok p1 =>
              rb2 <- Board_parse input2 ;;
              match rb2 with
              | Err e => Done (Err e)
              | Ok b2 =>
                  match Player_parse input2 with
                  | Err e => Done (Err e)
                  | Ok p2 =>
                      r <- solve fuel b1 p1 b2 p2 [(p1, p2)] [] ;;
                      match r with
                      | Some h => Done (Ok h)
                      | None => Done (Err NoSolution)
                      end
                  end
              end
          end
      end
  end.

(** ** The repository's tests, as inputs *)

Local Open Scope string_scope.

Definition join_lines (ls : list string) : string := String.concat (String nl EmptyString) ls.

Definition test_simple : string :=
  join_lines [" x"; "..."; "..."; ".R."; ""; " x"; "..."; "..."; "..R"].
Definition test_ice : string :=
  join_lines [" x"; "..."; ".IW"; "..R"; ""; "  x"; "..."; ".II"; "..R"].
Definition test_teleport_and_pit : string :=
  join_lines ["  x"; "..."; ".I."; ".R."; ""; "  x"; "..."; "TPT"; ".R."].

Local Close Scope string_scope.

(** ** Notions used in the statements *)

(** Replaying a move sequence through [apply] on both boards: every move but
    the last leaves both tokens at a position, and the last one makes both
    exit. *)
Fixpoint replays (b1 : Board) (p1 : Player) (b2 : Board) (p2 : Player) (ds : list Dir) : bool :=
  match ds with
  | [] => false
  | d :: ds' =>
      match apply d b1 p1, apply d b2 p2 with
      | Done Success, Done Success => match ds' with [] => true | _ => false end
      | Done (Just q1), Done (Just q2) => replays b1 q1 b2 q2 ds'
      | _, _ => false
      end
  end.

(** The histories that end in success in the search tree explored by
    [solve] from a call with these arguments. *)
Inductive wins (b1 b2 : Board)
  : Player -> Player -> list (Player * Player) -> list Dir -> list Dir -> Prop :=
| wins_found p1 p2 vis hist dir h :
    step b1 p1 b2 p2 vis hist dir = Done (Found h) ->
    wins b1 b2 p1 p2 vis hist h
| wins_descend p1 p2 vis hist dir q1 q2 vis' hist' h :
    step b1 p1 b2 p2 vis hist dir = Done (Descend q1 q2 vis' hist') ->
    wins b1 b2 q1 q2 vis' hist' h ->
    wins b1 b2 p1 p2 vis hist h.

(** A lineage of recursive calls of [solve]: from the call with
    [p1 p2 vis hist] to the call with [q1 q2 v h]; [trace] lists the joint
    positions entered by each move of the lineage, in order. *)
Inductive reach (b1 b2 : Board) (p1 p2 : Player) (vis : list (Player * Player)) (hist : list Dir)
  : Player -> Player -> list (Player * Player) -> list Dir -> list (Player * Player) -> Prop :=
| reach_here : reach b1 b2 p1 p2 vis hist p1 p2 vis hist []
| reach_next q1 q2 v h trace dir r1 r2 v' h' :
    reach b1 b2 p1 p2 vis hist q1 q2 v h trace ->
    step b1 q1 b2 q2 v h dir = Done (Descend r1 r2 v' h') ->
    reach b1 b2 p1 p2 vis hist r1 r2 v' h' (trace ++ [(r1, r2)]).

(** The order in which [solve] tries directions, and the lexicographic order
    it induces on move sequences. *)
Definition dir_rank (d : Dir) : nat :=
  match d with Up => 0 | Down => 1 | Right => 2 | Left => 3 end.

Fixpoint lex_le (a b : list Dir) : bool :=
  match a, b with
  | [], _ => true
  | _ :: _, [] => false
  | d :: a', e :: b' =>
      Nat.ltb (dir_rank d) (dir_rank e)
      || (Nat.eqb (dir_rank d) (dir_rank e) && lex_le a' b')
  end.

(** [n] hops from [p] in direction [d]. *)
Fixpoint hops (p : Player) (d : Dir) (n : nat) : Player :=
  match n with
  | O => p
  | S n' => hop (hops p d n') d
  end.

(** Values of type [isize]. *)
Definition isize_ok (p : Player) : Prop :=
  - 2 ^ 63 <= x p < 2 ^ 63 /\ - 2 ^ 63 <= y p < 2 ^ 63.

(** A [Vec] holds at most [isize::MAX] elements. *)
Definition board_ok (b : Board) : Prop :=
  Z.of_nat (List.length (tiles b)) < 2 ^ 63
  /\ forall r, In r (tiles b) -> Z.of_nat (List.length r) < 2 ^ 63.

(** All rows as long as the first one. *)
Definition rectangular (b : Board) : Prop :=
  forall r, In r (tiles b) -> List.length r = List.length (hd [] (tiles b)).

(** The characters [Board::parse] maps to a tile. *)
Definition tile_char (c : ascii) : bool :=
  existsb (Ascii.eqb c) ["."; "R"; "T"; "P"; "I"; "W"]%char.

(** The grid cells holding a teleport, in row-major order. *)
Definition enumerate {A : Type} (l : list A) : list (nat * A) :=
  combine (seq 0 (List.length l)) l.

Definition teleport_cells (b : Board) : list Player :=
  flat_map (fun '(j, row) =>
              flat_map (fun '(i, t) =>
                          if Tile.eqb t Tile.Teleport
                          then [mkPlayer (Z.of_nat i) (Z.of_nat j)] else [])
                       (enumerate row))
           (enumerate (tiles b)).

(** ** The search as the spec describes it (sections 4.2 and 4.3)

    A second definition, following the spec's words, to be compared with
    [solve]: breadth-first expansion of a worklist of turns. *)

Inductive TurnStatus := Ongoing | Failed | Succeeded.

Record Turn := mkTurn {
  turn_p1 : Player; turn_p2 : Player;
  turn_history : list Dir; turn_visited : list (Player * Player);
  turn_status : TurnStatus }.

(** Section 4.2: [Turn.expand(direction)]. *)
Definition spec_expand (b1 b2 : Board) (t : Turn) (d : Dir) : Exec Turn :=
  o1 <- apply d b1 (turn_p1 t) ;;
  o2 <- apply d b2 (turn_p2 t) ;;
  let h := turn_history t ++ [d] in
  match o1, o2 with
  | Success, Success => Done (mkTurn (turn_p1 t) (turn_p2 t) h (turn_visited t) Succeeded)
  | Just q1, Just q2 =>
      if contains (turn_visited t) (q1, q2)
      then Done (mkTurn (turn_p1 t) (turn_p2 t) h (turn_visited t) Failed)
      else Done (mkTurn q1 q2 h ((q1, q2) :: turn_visited t) Ongoing)
  | _, _ => Done (mkTurn (turn_p1 t) (turn_p2 t) h (turn_visited t) Failed)
  end.

Definition is_succeeded (t : Turn) : bool :=
  match turn_status t with Succeeded => true | _ => false end.
Definition is_ongoing (t : Turn) : bool :=
  match turn_status t with Ongoing => true | _ => false end.
Definition is_failed (t : Turn) : bool :=
  match turn_status t with Failed => true | _ => false end.

(** Section 4.3, one generation per unit of [fuel]. *)
Fixpoint spec_bfs (fuel : nat) (b1 b2 : Board) (work : list Turn) : Exec (option (list Dir)) :=
  match fuel with
  | O => NoFuel
  | S fuel' =>
      match work with
      | [] => Done None
      | _ =>
          match find is_succeeded work with
          | Some t => Done (Some (turn_history t))
          | None =>
              next <- map_collect (fun t => map_collect (spec_expand b1 b2 t) dirs)
                                  (filter is_ongoing work) ;;
              spec_bfs fuel' b1 b2 (filter (fun t => negb (is_failed t)) (List.concat next))
          end
      end
  end.

Definition spec_solve (fuel : nat) (b1 : Board) (p1 : Player) (b2 : Board) (p2 : Player)
  : Exec (option (list Dir)) :=
  spec_bfs fuel b1 b2 [mkTurn p1 p2 [] [(p1, p2)] Ongoing].

(** ** Concrete boards *)

(** The two boards of the test [simple]. *)
Definition simple_b1 : Board :=
  mkBoard [[Tile.None; Tile.None; Tile.None];
           [Tile.None; Tile.None; Tile.None];
           [Tile.None; Tile.None; Tile.None]] 1.
Definition simple_p1 : Player := mkPlayer 1 2.
Definition simple_b2 : Board := simple_b1.
Definition simple_p2 : Player := mkPlayer 2 2.

(** A row of three teleports above a row of floor. *)
Definition three_teleports : Board :=
  mkBoard [[Tile.Teleport; Tile.Teleport; Tile.Teleport];
           [Tile.None; Tile.None; Tile.None]] 0.

(** The first board of the test [ice]: an ice tile next to a wall. *)
Definition ice_b1 : Board :=
  mkBoard [[Tile.None; Tile.None; Tile.None];
           [Tile.None; Tile.Ice; Tile.Wall];
           [Tile.None; Tile.None; Tile.None]] 1.

(** A row with a teleport at each end, above a row of floor. *)
Definition two_teleports : Board :=
  mkBoard [[Tile.Teleport; Tile.None; Tile.Teleport];
           [Tile.None; Tile.None; Tile.None]] 1.

(** The first board of the test [simple], as text. *)
Definition simple_text : string := join_lines [" x"; "..."; "..."; ".R."]%string.

(** A puzzle without a solution: the exit column of the second board lies
    right of its only column. *)
Definition unsolvable : string := join_lines ["x"; "R"; ""; " x"; "R"]%string.

(** ** Grid cells and the positions a move sequence passes through *)

(** [p] is a cell of the grid: row [y p] exists and has a column [x p]. *)
Definition in_grid (b : Board) (p : Player) : bool :=
  (0 <=? y p) && (0 <=? x p)
  && match nth_error (tiles b) (Z.to_nat (y p)) with
     | Some r => x p <? Z.of_nat (List.length r)
     | None => false
     end.

(** The cells of the grid, in row-major order. *)
Definition cells (b : Board) : list Player :=
  flat_map (fun '(j, row) =>
              map (fun i => mkPlayer (Z.of_nat i) (Z.of_nat j)) (seq 0 (List.length row)))
           (enumerate (tiles b)).

(** The number of joint positions of two grids. *)
Definition search_bound (b1 b2 : Board) : nat :=
  (List.length (cells b1) * List.length (cells b2))%nat.

(** The joint positions entered by the moves of [ds] that leave both tokens
    on their boards, up to the first move that does not. *)
Fixpoint trail (b1 : Board) (p1 : Player) (b2 : Board) (p2 : Player) (ds : list Dir)
  : list (Player * Player) :=
  match ds with
  | [] => []
  | d :: ds' =>
      match apply d b1 p1, apply d b2 p2 with
      | Done (Just q1), Done (Just q2) => (q1, q2) :: trail b1 q1 b2 q2 ds'
      | _, _ => []
      end
  end.

(** * Proofs *)

(** ** The repository's tests hold in the model *)

Example test_simple_ok :
  solve_puzzle 100 test_simple = Done (Ok [Up; Up; Right; Down; Down; Left; Up; Up; Up]).
Proof. vm_compute. reflexivity. Qed.

Example test_ice_ok :
  solve_puzzle 100 test_ice = Done (Ok [Up; Left; Up; Down; Left; Up; Right; Up; Up]).
Proof. vm_compute. reflexivity. Qed.

Example test_teleport_and_pit_ok :
  solve_puzzle 100 test_teleport_and_pit = Done (Ok [Right; Up; Up; Down; Up; Up]).
Proof. vm_compute. reflexivity. Qed.

(** ** Basic facts *)

Lemma in_dirs (d : Dir) : In d dirs.
Proof. destruct d; simpl; tauto. Qed.

Lemma find_map_some {A B : Type} (f : A -> Exec (option B)) (l : list A) (b : B) :
  find_map f l = Done (Some b) ->
  exists l1 a l2, l = l1 ++ a :: l2
    /\ (forall a', In a' l1 -> f a' = Done None) /\ f a = Done (Some b).
Proof.
  induction l as [|a l IH]; simpl; [discriminate|].
  destruct (f a) as [[b'|]| |] eqn:Ea; simpl; try discriminate.
  - intros [= <-]. exists [], a, l. simpl.
    split; [reflexivity|split; [intros ? []|exact Ea]].
  - intros H. destruct (IH H) as (l1 & a' & l2 & -> & Hn & Hs).
    exists (a :: l1), a', l2. split; [reflexivity|]. split; [|exact Hs].
    intros a'' [<-|Hin]; auto.
Qed.

Lemma find_map_none {A B : Type} (f : A -> Exec (option B)) (l : list A) :
  find_map f l = Done None -> forall a, In a l -> f a = Done None.
Proof.
  induction l as [|a l IH]; simpl; [tauto|].
  destruct (f a) as [[b'|]| |] eqn:Ea; simpl; try discriminate.
  intros H a' [<-|Hin]; auto.
Qed.

Lemma step_found b1 p1 b2 p2 vis hist dir h :
  step b1 p1 b2 p2 vis hist dir = Done (Found h) ->
  apply dir b1 p1 = Done Success /\ apply dir b2 p2 = Done Success /\ h = hist ++ [dir].
Proof.
  unfold step, bind.
  destruct (apply dir b1 p1) as [s1| |]; try discriminate.
  destruct (apply dir b2 p2) as [s2| |]; try discriminate.
  destruct s1, s2; try discriminate;
    try (destruct contains; discriminate).
  intros [= <-]. auto.
Qed.

Lemma step_descend b1 p1 b2 p2 vis hist dir q1 q2 v' h' :
  step b1 p1 b2 p2 vis hist dir = Done (Descend q1 q2 v' h') ->
  apply dir b1 p1 = Done (Just q1) /\ apply dir b2 p2 = Done (Just q2)
  /\ contains vis (q1, q2) = false /\ v' = (q1, q2) :: vis /\ h' = hist ++ [dir].
Proof.
  unfold step, bind.
  destruct (apply dir b1 p1) as [s1| |]; try discriminate.
  destruct (apply dir b2 p2) as [s2| |]; try discriminate.
  destruct s1, s2; try discriminate.
  destruct contains eqn:C; [discriminate|].
  intros [= <- <- <- <-]. auto.
Qed.

(** ** Solutions found by [solve] *)

Lemma solve_some_wins fuel b1 b2 : forall p1 p2 vis hist h,
  solve fuel b1 p1 b2 p2 vis hist = Done (Some h) -> wins b1 b2 p1 p2 vis hist h.
Proof.
  induction fuel as [|fuel IH]; intros p1 p2 vis hist h H; [discriminate|].
  cbn [solve] in H.
  destruct (find_map_some _ _ _ H) as (l1 & a & l2 & _ & _ & Ha).
  unfold bind in Ha.
  destruct (step b1 p1 b2 p2 vis hist a) as [c| |] eqn:Es; try discriminate.
  destruct c as [h0| |q1 q2 v' h'].
  - injection Ha as <-. eapply wins_found. exact Es.
  - discriminate.
  - eapply wins_descend; [exact Es|]. apply IH. exact Ha.
Qed.

Lemma solve_none_no_wins fuel b1 b2 : forall p1 p2 vis hist,
  solve fuel b1 p1 b2 p2 vis hist = Done None -> forall h, ~ wins b1 b2 p1 p2 vis hist h.
Proof.
  induction fuel as [|fuel IH]; intros p1 p2 vis hist H h W; [discriminate|].
  cbn [solve] in H.
  pose proof (find_map_none _ _ H) as Hn.
  inversion W as [? ? ? ? dir h0 Es | ? ? ? ? dir q1 q2 v' h' h0 Es W']; subst.
  - specialize (Hn dir (in_dirs dir)). cbv beta in Hn. rewrite Es in Hn.
    discriminate.
  - specialize (Hn dir (in_dirs dir)). cbv beta in Hn. rewrite Es in Hn.
    exact (IH _ _ _ _ Hn h W').
Qed.

Lemma wins_replays b1 b2 p1 p2 vis hist h :
  wins b1 b2 p1 p2 vis hist h ->
  exists ds, h = hist ++ ds /\ replays b1 p1 b2 p2 ds = true.
Proof.
  induction 1 as [p1 p2 vis hist dir h Es | p1 p2 vis hist dir q1 q2 v' h' h Es W IH].
  - destruct (step_found _ _ _ _ _ _ _ _ Es) as (A1 & A2 & ->).
    exists [dir]. split; [reflexivity|].
    cbn [replays]. rewrite A1, A2. reflexivity.
  - destruct (step_descend _ _ _ _ _ _ _ _ _ _ _ Es) as (A1 & A2 & _ & _ & ->).
    destruct IH as (ds & -> & R).
    exists (dir :: ds). split; [rewrite <- app_assoc; reflexivity|].
    cbn [replays]. rewrite A1, A2. exact R.
Qed.

(** ** The order of [dirs] *)

Lemma lex_le_refl (l : list Dir) : lex_le l l = true.
Proof.
  induction l as [|d l IH]; [reflexivity|].
  simpl. rewrite Nat.ltb_irrefl, Nat.eqb_refl, IH. reflexivity.
Qed.

Lemma lex_le_app (p a b : list Dir) : lex_le (p ++ a) (p ++ b) = lex_le a b.
Proof.
  induction p as [|d p IH]; [reflexivity|].
  simpl. rewrite Nat.ltb_irrefl, Nat.eqb_refl, IH. reflexivity.
Qed.

Lemma lex_le_lt (d e : Dir) (a b : list Dir) :
  (dir_rank d < dir_rank e)%nat -> lex_le (d :: a) (e :: b) = true.
Proof.
  intros Hlt. simpl. apply Nat.ltb_lt in Hlt. rewrite Hlt. reflexivity.
Qed.

Lemma dirs_split_rank (l1 l2 : list Dir) (a d : Dir) :
  dirs = l1 ++ a :: l2 -> In d l2 -> (dir_rank a < dir_rank d)%nat.
Proof.
  unfold dirs. intros H Hin.
  destruct l1 as [|u1 [|u2 [|u3 [|u4 l1]]]]; cbn in H;
    injection H; intros; subst; simpl in Hin;
    try (destruct l1; discriminate);
    repeat (destruct Hin as [<-|Hin]; [simpl; lia|]); contradiction.
Qed.

(** The first move of a success in the tree below a call. *)
Lemma solve_dir_prefix fuel b1 p1 b2 p2 vis hist a h :
  (c <- step b1 p1 b2 p2 vis hist a ;;
   match c with
   | Found h => Done (Some h)
   | Backtrack => Done None
   | Descend np1 np2 vis hist => solve fuel b1 np1 b2 np2 vis hist
   end) = Done (Some h) ->
  exists r, h = hist ++ a :: r.
Proof.
  unfold bind.
  destruct (step b1 p1 b2 p2 vis hist a) as [c| |] eqn:Es; try discriminate.
  destruct c as [h0| |q1 q2 v' h'].
  - intros [= <-]. destruct (step_found _ _ _ _ _ _ _ _ Es) as (_ & _ & ->).
    exists []. reflexivity.
  - discriminate.
  - intros H. destruct (step_descend _ _ _ _ _ _ _ _ _ _ _ Es) as (_ & _ & _ & _ & ->).
    destruct (wins_replays _ _ _ _ _ _ _ (solve_some_wins _ _ _ _ _ _ _ _ H)) as (ds & -> & _).
    exists ds. rewrite <- app_assoc. reflexivity.
Qed.

Lemma wins_prefix b1 b2 p1 p2 vis hist dir c h :
  step b1 p1 b2 p2 vis hist dir = Done c ->
  (c = Found h \/ exists q1 q2 v' h', c = Descend q1 q2 v' h' /\ wins b1 b2 q1 q2 v' h' h) ->
  exists r, h = hist ++ dir :: r.
Proof.
  intros Es [-> | (q1 & q2 & v' & h' & -> & W)].
  - destruct (step_found _ _ _ _ _ _ _ _ Es) as (_ & _ & ->). exists []. reflexivity.
  - destruct (step_descend _ _ _ _ _ _ _ _ _ _ _ Es) as (_ & _ & _ & _ & ->).
    destruct (wins_replays _ _ _ _ _ _ _ W) as (ds & -> & _).
    exists ds. rewrite <- app_assoc. reflexivity.
Qed.

Lemma solve_least fuel b1 b2 : forall p1 p2 vis hist h,
  solve fuel b1 p1 b2 p2 vis hist = Done (Some h) ->
  forall h', wins b1 b2 p1 p2 vis hist h' -> lex_le h h' = true.
Proof.
  induction fuel as [|fuel IH]; intros p1 p2 vis hist h H h' W; [discriminate|].
  cbn [solve] in H.
  destruct (find_map_some _ _ _ H) as (l1 & a & l2 & Hsplit & Hn & Ha).
  cbv beta in Hn, Ha.
  destruct (solve_dir_prefix _ _ _ _ _ _ _ _ _ Ha) as (r & Hr).
  inversion W as [? ? ? ? dir h0 Es | ? ? ? ? dir q1 q2 v' h'' h0 Es W']; subst.
  - (* the success [h'] is the child of a single move *)
    assert (Hin : In dir (l1 ++ a :: l2)) by (rewrite <- Hsplit; apply in_dirs).
    apply in_app_or in Hin as [Hin|[<-|Hin]].
    + specialize (Hn dir Hin). rewrite Es in Hn. discriminate.
    + unfold bind in Ha. rewrite Es in Ha. injection Ha as ->. apply lex_le_refl.
    + destruct (wins_prefix _ _ _ _ _ _ _ _ h' Es (or_introl eq_refl)) as (r' & ->).
      rewrite lex_le_app. apply lex_le_lt. exact (dirs_split_rank _ _ _ _ Hsplit Hin).
  - (* the success [h'] lies below a recursive call *)
    assert (Hin : In dir (l1 ++ a :: l2)) by (rewrite <- Hsplit; apply in_dirs).
    apply in_app_or in Hin as [Hin|[<-|Hin]].
    + specialize (Hn dir Hin). unfold bind in Hn. rewrite Es in Hn.
      exact (False_ind _ (solve_none_no_wins _ _ _ _ _ _ _ Hn h' W')).
    + unfold bind in Ha. rewrite Es in Ha. exact (IH _ _ _ _ _ Ha h' W').
    + destruct (wins_prefix _ _ _ _ _ _ _ _ h' Es
                  (or_intror (ex_intro _ q1 (ex_intro _ q2 (ex_intro _ v'
                     (ex_intro _ h'' (conj eq_refl W'))))))) as (r' & ->).
      rewrite lex_le_app. apply lex_le_lt. exact (dirs_split_rank _ _ _ _ Hsplit Hin).
Qed.

(** ** Fuel adequacy of [solve]: a result other than [NoFuel] does not
    change with more fuel, so it is the result of the unbounded recursion. *)

Lemma find_map_fuel {A B : Type} (f g : A -> Exec (option B)) (l : list A) :
  (forall a, f a <> NoFuel -> g a = f a) -> find_map f l <> NoFuel -> find_map g l = find_map f l.
Proof.
  intros Hfg. induction l as [|a l IH]; simpl; [reflexivity|].
  destruct (f a) as [r| m|] eqn:Fa; simpl; intros Hn; [|rewrite Hfg, Fa by congruence; reflexivity|contradiction].
  rewrite Hfg, Fa by congruence. simpl.
  destruct r; [reflexivity|]. apply IH. exact Hn.
Qed.

Lemma solve_fuel_mono (n : nat) : forall m b1 p1 b2 p2 vis hist,
  (n <= m)%nat -> solve n b1 p1 b2 p2 vis hist <> NoFuel ->
  solve m b1 p1 b2 p2 vis hist = solve n b1 p1 b2 p2 vis hist.
Proof.
  induction n as [|n IH]; intros m b1 p1 b2 p2 vis hist Hle Hn; [contradiction|].
  destruct m as [|m]; [lia|].
  cbn [solve] in *. apply find_map_fuel; [|exact Hn].
  intros dir Hd. unfold bind in *.
  destruct (step b1 p1 b2 p2 vis hist dir) as [c| |]; try reflexivity.
  destruct c; try reflexivity.
  apply IH; [lia|exact Hd].
Qed.

(** ** C1 *)

(** C1: if [solve_puzzle] returns [Ok(history)], the input splits into two
    boards that parse, and replaying [history] through [apply] from both start
    positions keeps both tokens at positions on every move but the last, and
    makes both exit on the last move. *)
Theorem solve_puzzle_sound (fuel : nat) (input : string) (h : list Dir) :
  solve_puzzle fuel input = Done (Ok h) ->
  exists input1 input2 b1 p1 b2 p2,
    split_once_nn input = Some (input1, input2)
    /\ Board_parse input1 = Done (Ok b1) /\ Player_parse input1 = Ok p1
    /\ Board_parse input2 = Done (Ok b2) /\ Player_parse input2 = Ok p2
    /\ replays b1 p1 b2 p2 h = true.
Proof.
  unfold solve_puzzle.
  destruct (split_once_nn input) as [[input1 input2]|]; [|discriminate].
  unfold bind at 1.
  destruct (Board_parse input1) as [[b1|e]| |] eqn:B1; try discriminate.
  destruct (Player_parse input1) as [p1|e] eqn:P1; try discriminate.
  unfold bind at 1.
  destruct (Board_parse input2) as [[b2|e]| |] eqn:B2; try discriminate.
  destruct (Player_parse input2) as [p2|e] eqn:P2; try discriminate.
  unfold bind.
  destruct (solve fuel b1 p1 b2 p2 [(p1, p2)] []) as [[h'|]| |] eqn:S; try discriminate.
  intros [= <-].
  destruct (wins_replays _ _ _ _ _ _ _ (solve_some_wins _ _ _ _ _ _ _ _ S)) as (ds & -> & R).
  exists input1, input2, b1, p1, b2, p2. auto 7.
Qed.

Lemma solve_puzzle_sound_witness :
  solve_puzzle 100 test_simple = Done (Ok [Up; Up; Right; Down; Down; Left; Up; Up; Up])
  /\ exists input1 input2 b1 p1 b2 p2,
    split_once_nn test_simple = Some (input1, input2)
    /\ Board_parse input1 = Done (Ok b1) /\ Player_parse input1 = Ok p1
    /\ Board_parse input2 = Done (Ok b2) /\ Player_parse input2 = Ok p2
    /\ replays b1 p1 b2 p2 [Up; Up; Right; Down; Down; Left; Up; Up; Up] = true.
Proof.
  split.
  - vm_compute. reflexivity.
  - apply (solve_puzzle_sound 100). vm_compute. reflexivity.
Defined.

(** ** C2 *)

(** C2 (as amended): [solve] searches depth first.  When it returns
    [Some h], [h] is a success of its search tree (the tree of moves
    [apply]'d to both boards, pruned by the visited set), and [h] is the least
    success of that tree in the lexicographic order in which [Up] < [Down] <
    [Right] < [Left]. *)
Theorem solve_first_in_dfs_order fuel b1 p1 b2 p2 vis hist h :
  solve fuel b1 p1 b2 p2 vis hist = Done (Some h) ->
  wins b1 b2 p1 p2 vis hist h
  /\ forall h', wins b1 b2 p1 p2 vis hist h' -> lex_le h h' = true.
Proof.
  intros H. split.
  - exact (solve_some_wins _ _ _ _ _ _ _ _ H).
  - exact (solve_least _ _ _ _ _ _ _ _ H).
Qed.

Lemma solve_first_in_dfs_order_witness :
  let h := [Up; Up; Right; Down; Down; Left; Up; Up; Up] in
  solve 100 simple_b1 simple_p1 simple_b2 simple_p2 [(simple_p1, simple_p2)] [] = Done (Some h)
  /\ wins simple_b1 simple_b2 simple_p1 simple_p2 [(simple_p1, simple_p2)] [] h
  /\ forall h', wins simple_b1 simple_b2 simple_p1 simple_p2 [(simple_p1, simple_p2)] [] h' ->
       lex_le h h' = true.
Proof.
  intros h. split.
  - vm_compute. reflexivity.
  - apply (solve_first_in_dfs_order 100). vm_compute. reflexivity.
Defined.

(** C2 fails as stated: on the boards of the test [simple] (the input
    [test_simple]) [solve] returns nine moves, while the breadth-first
    expansion of the spec returns five moves, which are a solution too. *)
Lemma search_order_counterexample :
  solve_puzzle 100 test_simple = Done (Ok [Up; Up; Right; Down; Down; Left; Up; Up; Up])
  /\ split_once_nn test_simple = Some (" x
...
...
.R."%string, " x
...
...
..R"%string)
  /\ Board_parse " x
...
...
.R."%string = Done (Ok simple_b1)
  /\ Player_parse " x
...
...
.R."%string = Ok simple_p1
  /\ Board_parse " x
...
...
..R"%string = Done (Ok simple_b2)
  /\ Player_parse " x
...
...
..R"%string = Ok simple_p2
  /\ spec_solve 10 simple_b1 simple_p1 simple_b2 simple_p2 = Done (Some [Up; Up; Right; Left; Up])
  /\ replays simple_b1 simple_p1 simple_b2 simple_p2 [Up; Up; Right; Left; Up] = true.
Proof. vm_compute. repeat split. Qed.

(** ** C4 *)

(** C4: when a direction is applied to both tokens, the child succeeds
    exactly when both tokens exit; if a token falls in a pit, or one exits
    while the other stays on its board, the child is pruned. *)
Theorem step_combination b1 p1 b2 p2 vis hist dir s1 s2 :
  apply dir b1 p1 = Done s1 -> apply dir b2 p2 = Done s2 ->
  ((exists h, step b1 p1 b2 p2 vis hist dir = Done (Found h)) <-> s1 = Success /\ s2 = Success)
  /\ (s1 = Dead \/ s2 = Dead \/ (s1 = Success /\ exists q, s2 = Just q)
      \/ ((exists q, s1 = Just q) /\ s2 = Success) ->
      step b1 p1 b2 p2 vis hist dir = Done Backtrack).
Proof.
  intros A1 A2. unfold step, bind. rewrite A1, A2.
  split.
  - split.
    + intros [h Hh]. destruct s1, s2; try discriminate; auto.
      destruct contains; discriminate.
    + intros [-> ->]. eexists. reflexivity.
  - intros Hc.
    destruct Hc as [-> | [-> | [[-> [q ->]] | [[q ->] ->]]]];
      try reflexivity; destruct s1; reflexivity.
Qed.

Lemma step_combination_witness :
  apply Up simple_b1 (mkPlayer 1 0) = Done Success
  /\ apply Up simple_b2 (mkPlayer 1 1) = Done (Just (mkPlayer 1 0))
  /\ ((exists h, step simple_b1 (mkPlayer 1 0) simple_b2 (mkPlayer 1 1) [] [] Up = Done (Found h))
      <-> Success = Success /\ Just (mkPlayer 1 0) = Success)
  /\ (Success = Dead \/ Just (mkPlayer 1 0) = Dead
      \/ (Success = Success /\ exists q, Just (mkPlayer 1 0) = Just q)
      \/ ((exists q, Success = Just q) /\ Just (mkPlayer 1 0) = Success) ->
      step simple_b1 (mkPlayer 1 0) simple_b2 (mkPlayer 1 1) [] [] Up = Done Backtrack).
Proof.
  split; [vm_compute; reflexivity|].
  split; [vm_compute; reflexivity|].
  apply step_combination; vm_compute; reflexivity.
Defined.

(** ** C5 *)

Lemma player_eqb_eq (p q : Player) : player_eqb p q = true <-> p = q.
Proof.
  destruct p as [px py], q as [qx qy]. unfold player_eqb. simpl.
  rewrite andb_true_iff, !Z.eqb_eq.
  split; [intros [-> ->]; reflexivity | intros [= -> ->]; auto].
Qed.

Lemma pair_eqb_eq (a b : Player * Player) : pair_eqb a b = true <-> a = b.
Proof.
  destruct a as [a1 a2], b as [c1 c2]. unfold pair_eqb. simpl.
  rewrite andb_true_iff, !player_eqb_eq.
  split; [intros [-> ->]; reflexivity | intros [= -> ->]; auto].
Qed.

Lemma contains_In (v : list (Player * Player)) (e : Player * Player) :
  contains v e = true <-> In e v.
Proof.
  unfold contains. rewrite existsb_exists.
  split.
  - intros (e' & Hin & Heq). apply pair_eqb_eq in Heq. subst. exact Hin.
  - intros Hin. exists e. split; [exact Hin|]. apply pair_eqb_eq. reflexivity.
Qed.

Lemma reach_visited b1 b2 p1 p2 q1 q2 v h trace :
  reach b1 b2 p1 p2 [(p1, p2)] [] q1 q2 v h trace ->
  NoDup ((p1, p2) :: trace) /\ v = rev trace ++ [(p1, p2)].
Proof.
  induction 1 as [|q1 q2 v h trace dir r1 r2 v' h' R IH Es].
  - split; [constructor; [intros []|constructor] | reflexivity].
  - destruct IH as [ND Hv].
    destruct (step_descend _ _ _ _ _ _ _ _ _ _ _ Es) as (_ & _ & C & -> & _).
    assert (Hnot : ~ In (r1, r2) v) by (rewrite <- contains_In, C; discriminate).
    split.
    + apply (Permutation_NoDup
               (Permutation_cons_append ((p1, p2) :: trace) (r1, r2))).
      constructor; [|exact ND].
      intros Hin. apply Hnot. rewrite Hv. apply in_or_app.
      destruct Hin as [<-|Hin]; [right; left; reflexivity|left; apply in_rev in Hin; exact Hin].
    + rewrite Hv, rev_app_distr. reflexivity.
Qed.

(** C5: along every lineage of recursive calls of [solve] that starts from
    the call made by [solve_puzzle] (visited set [[(p1, p2)]], empty history),
    no joint position is entered twice, and the visited set of a call holds
    exactly the joint positions of its lineage.  At each call, a move whose
    joint position is in the visited set is pruned, and any other move to a
    joint position recurses with that position inserted into (a copy of) the
    visited set. *)
Theorem visited_never_reentered b1 b2 p1 p2 q1 q2 v h trace :
  reach b1 b2 p1 p2 [(p1, p2)] [] q1 q2 v h trace ->
  NoDup ((p1, p2) :: trace) /\ v = rev trace ++ [(p1, p2)]
  /\ (forall dir r1 r2,
        apply dir b1 q1 = Done (Just r1) -> apply dir b2 q2 = Done (Just r2) ->
        (In (r1, r2) v -> step b1 q1 b2 q2 v h dir = Done Backtrack)
        /\ (~ In (r1, r2) v ->
            step b1 q1 b2 q2 v h dir = Done (Descend r1 r2 ((r1, r2) :: v) (h ++ [dir])))).
Proof.
  intros R. destruct (reach_visited _ _ _ _ _ _ _ _ _ R) as [ND Hv].
  split; [exact ND|]. split; [exact Hv|].
  intros dir r1 r2 A1 A2. unfold step, bind. rewrite A1, A2.
  split.
  - intros Hin. apply contains_In in Hin. rewrite Hin. reflexivity.
  - intros Hnot. destruct (contains v (r1, r2)) eqn:C.
    + apply contains_In in C. contradiction.
    + reflexivity.
Qed.

Lemma visited_never_reentered_witness :
  let q1 := mkPlayer 1 1 in
  let q2 := mkPlayer 2 1 in
  let v := [(q1, q2); (simple_p1, simple_p2)] in
  NoDup ((simple_p1, simple_p2) :: [(q1, q2)]) /\ v = rev [(q1, q2)] ++ [(simple_p1, simple_p2)]
  /\ (forall dir r1 r2,
        apply dir simple_b1 q1 = Done (Just r1) -> apply dir simple_b2 q2 = Done (Just r2) ->
        (In (r1, r2) v -> step simple_b1 q1 simple_b2 q2 v [Up] dir = Done Backtrack)
        /\ (~ In (r1, r2) v ->
            step simple_b1 q1 simple_b2 q2 v [Up] dir
            = Done (Descend r1 r2 ((r1, r2) :: v) ([Up] ++ [dir])))).
Proof.
  intros q1 q2 v.
  apply (visited_never_reentered simple_b1 simple_b2 simple_p1 simple_p2 q1 q2 v [Up]).
  change [(q1, q2)] with ([] ++ [(q1, q2)]).
  eapply (reach_next _ _ _ _ _ _ _ _ _ _ _ Up); [apply reach_here|].
  vm_compute. reflexivity.
Defined.

(** ** Tile lookup *)

Lemma vec_get_some {A : Type} (l : list A) (i : Z) (a : A) :
  vec_get l i = Some a -> 0 <= i < Z.of_nat (List.length l) /\ nth_error l (Z.to_nat i) = Some a.
Proof.
  unfold vec_get. destruct (0 <=? i) eqn:H0, (i <? Z.of_nat (List.length l)) eqn:H1;
    simpl; try discriminate.
  apply Z.leb_le in H0. apply Z.ltb_lt in H1. auto.
Qed.

Lemma vec_get_in {A : Type} (l : list A) (i : Z) :
  0 <= i < Z.of_nat (List.length l) -> exists a, vec_get l i = Some a
    /\ nth_error l (Z.to_nat i) = Some a.
Proof.
  intros Hi. unfold vec_get.
  destruct (nth_error l (Z.to_nat i)) as [a|] eqn:E.
  - exists a. replace ((0 <=? i) && (i <? Z.of_nat (List.length l))) with true; [auto|].
    symmetry. apply andb_true_iff. split; [apply Z.leb_le|apply Z.ltb_lt]; lia.
  - apply nth_error_None in E. lia.
Qed.

Lemma vec_get_out {A : Type} (l : list A) (i : Z) :
  Z.of_nat (List.length l) <= i -> vec_get l i = None.
Proof.
  intros Hi. unfold vec_get.
  replace (i <? Z.of_nat (List.length l)) with false by (symmetry; apply Z.ltb_ge; lia).
  rewrite andb_false_r. reflexivity.
Qed.

(** [z as usize] for a non-negative [isize]. *)
Lemma usize_of_isize_nonneg (z : Z) : 0 <= z < 2 ^ 63 -> usize_of_isize z = z.
Proof. intros Hz. unfold usize_of_isize. apply Z.mod_small. lia. Qed.

(** [z as usize] for a negative [isize] is at least [2^63]. *)
Lemma usize_of_isize_neg (z : Z) : - 2 ^ 63 <= z < 0 -> usize_of_isize z = z + 2 ^ 64.
Proof.
  intros Hz. unfold usize_of_isize.
  rewrite <- (Z.mod_add z 1 (2 ^ 64)) by lia. apply Z.mod_small. lia.
Qed.

Lemma get_tile_not_nofuel (b : Board) (p : Player) : get_tile b p <> NoFuel.
Proof.
  unfold get_tile.
  repeat match goal with
         | |- context [if ?c then _ else _] => destruct c
         | |- context [match ?m with _ => _ end] => destruct m
         end; discriminate.
Qed.

(** A tile of kind other than [Wall] and [Exit] is a stored tile of the grid. *)
Lemma get_tile_stored (b : Board) (q : Player) (t : Tile.t) :
  board_ok b -> isize_ok q -> get_tile b q = Done t -> t <> Tile.Wall -> t <> Tile.Exit ->
  exists r, nth_error (tiles b) (Z.to_nat (y q)) = Some r
    /\ 0 <= y q < Z.of_nat (List.length (tiles b))
    /\ 0 <= x q < Z.of_nat (List.length r)
    /\ nth_error r (Z.to_nat (x q)) = Some t.
Proof.
  intros [Hlen Hrows] [Hx Hy] G HW HE. unfold get_tile in G.
  destruct (y q =? -1); [destruct (_ && _); injection G; congruence|].
  destruct (y q =? _); [injection G; congruence|].
  destruct (x q =? -1); [injection G; congruence|].
  destruct (tiles b) as [|row0 rest] eqn:Et; [discriminate|].
  destruct (x q =? _); [injection G; congruence|].
  rewrite <- Et in G, Hlen, Hrows |- *.
  destruct (vec_get (tiles b) (usize_of_isize (y q))) as [r|] eqn:Er; [|discriminate].
  destruct (vec_get r (usize_of_isize (x q))) as [t'|] eqn:Ex; [|discriminate].
  injection G as <-.
  apply vec_get_some in Er as [Ry Nr]. apply vec_get_some in Ex as [Rx Nx].
  assert (Hr : Z.of_nat (List.length r) < 2 ^ 63) by (apply Hrows; eapply nth_error_In; eauto).
  assert (Hy' : 0 <= y q).
  { destruct (Z.ltb_spec (y q) 0); [|lia]. rewrite usize_of_isize_neg in Ry; lia. }
  assert (Hx' : 0 <= x q).
  { destruct (Z.ltb_spec (x q) 0); [|lia]. rewrite usize_of_isize_neg in Rx; lia. }
  rewrite usize_of_isize_nonneg in Ry, Nr, Rx, Nx by lia.
  exists r. auto.
Qed.

Lemma max_row_len_ge (b : Board) (r : list Tile.t) :
  In r (tiles b) -> (List.length r <= max_row_len b)%nat.
Proof.
  unfold max_row_len. induction (tiles b) as [|r' rs IH]; simpl; [tauto|].
  intros [<-|Hin]; [lia|]. specialize (IH Hin). lia.
Qed.

(** ** Rays of ice *)

Lemma hops_coords (p : Player) (d : Dir) (n : nat) :
  hops p d n = match d with
               | Up => mkPlayer (x p) (y p - Z.of_nat n)
               | Down => mkPlayer (x p) (y p + Z.of_nat n)
               | Right => mkPlayer (x p + Z.of_nat n) (y p)
               | Left => mkPlayer (x p - Z.of_nat n) (y p)
               end.
Proof.
  induction n as [|n IH].
  - destruct p, d; simpl; f_equal; lia.
  - simpl hops. rewrite IH. destruct d; simpl; f_equal; lia.
Qed.

Lemma ice_in_grid (b : Board) (q : Player) :
  board_ok b -> isize_ok q -> get_tile b q = Done Tile.Ice ->
  0 <= y q < Z.of_nat (List.length (tiles b)) /\ 0 <= x q < Z.of_nat (max_row_len b)
  /\ x q < 2 ^ 63 - 1 /\ y q < 2 ^ 63 - 1.
Proof.
  intros Hb Hq G.
  destruct (get_tile_stored b q Tile.Ice Hb Hq G ltac:(discriminate) ltac:(discriminate))
    as (r & Nr & Hy & Hx & _).
  pose proof (max_row_len_ge b r (nth_error_In _ _ Nr)).
  destruct Hb as [Hlen Hrows].
  pose proof (Hrows r (nth_error_In _ _ Nr)). lia.
Qed.

Lemma ray_in_grid (b : Board) (p : Player) (d : Dir) (n : nat) :
  board_ok b -> isize_ok (hop p d) ->
  (forall i, (1 <= i <= n)%nat -> get_tile b (hops p d i) = Done Tile.Ice) ->
  forall i, (1 <= i <= n)%nat ->
    isize_ok (hops p d i)
    /\ 0 <= y (hops p d i) < Z.of_nat (List.length (tiles b))
    /\ 0 <= x (hops p d i) < Z.of_nat (max_row_len b).
Proof.
  intros Hb Hp Hice i Hi.
  induction i as [|i IH]; [lia|].
  assert (Hok : isize_ok (hops p d (S i))).
  { destruct i as [|i]; [exact Hp|].
    destruct IH as (Hok & _) ; [lia|].
    destruct (ice_in_grid b _ Hb Hok (Hice (S i) ltac:(lia))) as (Y & X & X' & Y').
    unfold isize_ok in *. simpl hops.
    destruct d; simpl; simpl in X, Y, X', Y'; lia. }
  destruct (ice_in_grid b _ Hb Hok (Hice (S i) Hi)) as (Y & X & _ & _).
  auto.
Qed.

(** At most [length tiles + max_row_len] ice tiles in a row. *)
Lemma ray_bound (b : Board) (p : Player) (d : Dir) (n : nat) :
  board_ok b -> isize_ok (hop p d) ->
  (forall i, (1 <= i <= n)%nat -> get_tile b (hops p d i) = Done Tile.Ice) ->
  (n <= List.length (tiles b) + max_row_len b)%nat.
Proof.
  intros Hb Hp Hice.
  destruct n as [|n]; [lia|].
  pose proof (ray_in_grid b p d (S n) Hb Hp Hice 1 ltac:(lia)) as (_ & Y1 & X1).
  pose proof (ray_in_grid b p d (S n) Hb Hp Hice (S n) ltac:(lia)) as (_ & Yn & Xn).
  rewrite !hops_coords in *.
  destruct d; simpl in *; lia.
Qed.

Lemma state_from_ray (b : Board) (p : Player) (d : Dir) (n fuel : nat) :
  (n < fuel)%nat ->
  (forall i, (1 <= i <= n)%nat -> get_tile b (hops p d i) = Done Tile.Ice) ->
  state_from fuel d p (hop p d) b
  = state_from (fuel - n) d (hops p d n) (hops p d (S n)) b.
Proof.
  intros Hn Hice. induction n as [|n IH].
  - rewrite Nat.sub_0_r. reflexivity.
  - rewrite IH by (auto with arith || (intros; apply Hice; lia)).
    replace (fuel - n)%nat with (S (fuel - S n)) by lia.
    cbn [state_from]. rewrite (Hice (S n)) by lia. reflexivity.
Qed.

Lemma state_from_non_ice (b : Board) (d : Dir) (from to : Player) (fuel : nat) :
  get_tile b to <> Done Tile.Ice ->
  state_from (S fuel) d from to b = state_from 1 d from to b.
Proof.
  intros Hn. cbn [state_from]. unfold bind.
  destruct (get_tile b to) as [t| |]; try reflexivity.
  destruct t; try reflexivity. contradiction.
Qed.

Lemma state_from_one_not_nofuel (b : Board) (d : Dir) (from to : Player) :
  get_tile b to <> Done Tile.Ice -> state_from 1 d from to b <> NoFuel.
Proof.
  intros Hn. cbn [state_from]. unfold bind.
  pose proof (get_tile_not_nofuel b to) as Hg.
  destruct (get_tile b to) as [t| |]; try discriminate; [|contradiction].
  destruct t; try discriminate; [|contradiction].
  unfold teleport, bind.
  pose proof (get_tile_not_nofuel b to) as Hg'.
  destruct (get_tile b to) as [t'| |]; try discriminate; [|contradiction].
  destruct t'; try discriminate.
  destruct teleport_in_rows; discriminate.
Qed.

(** The first tile that is not ice along a ray, searched within [m] hops. *)
Lemma first_non_ice (b : Board) (p : Player) (d : Dir) (m : nat) :
  (forall i, (1 <= i <= m)%nat -> get_tile b (hops p d i) = Done Tile.Ice)
  \/ exists k, (k < m)%nat
       /\ (forall i, (1 <= i <= k)%nat -> get_tile b (hops p d i) = Done Tile.Ice)
       /\ get_tile b (hops p d (S k)) <> Done Tile.Ice.
Proof.
  induction m as [|m IH].
  - left. intros i Hi. lia.
  - destruct IH as [Hall | (k & Hk & Hice & Hnot)].
    + destruct (get_tile b (hops p d (S m))) as [[]| |] eqn:G;
        try (right; exists m; split; [lia|]; split; [exact Hall|]; rewrite G; discriminate).
      left. intros i Hi. destruct (Nat.eq_dec i (S m)) as [->|Hne]; [exact G|].
      apply Hall. lia.
    + right. exists k. split; [lia|]. auto.
Qed.

Lemma ray_end (b : Board) (p : Player) (d : Dir) :
  board_ok b -> isize_ok (hop p d) ->
  exists k, (k < slide_bound b)%nat
    /\ (forall i, (1 <= i <= k)%nat -> get_tile b (hops p d i) = Done Tile.Ice)
    /\ get_tile b (hops p d (S k)) <> Done Tile.Ice.
Proof.
  intros Hb Hp.
  destruct (first_non_ice b p d (slide_bound b)) as [Hall | Hk]; [|exact Hk].
  pose proof (ray_bound b p d _ Hb Hp Hall). unfold slide_bound in *. lia.
Qed.

(** ** C6 *)

(** C6: a move ends.  From any position, the token crosses [k] ice tiles in
    the direction of the move, with [k] below [slide_bound b], until the next
    tile is not ice; the outcome is then decided by that tile alone, with the
    last ice tile (or the start when [k = 0]) as the position a wall bounces
    back to.  [apply] never runs out of fuel, and more fuel gives the same
    result, so [apply] computes what the unbounded recursion of
    [Player::slide] computes.  No acyclicity of the board is needed: a slide
    goes straight and teleports do not slide. *)
Theorem slide_terminates (b : Board) (d : Dir) (p : Player) :
  board_ok b -> isize_ok (hop p d) ->
  exists k, (k < slide_bound b)%nat
    /\ (forall i, (1 <= i <= k)%nat -> get_tile b (hops p d i) = Done Tile.Ice)
    /\ get_tile b (hops p d (S k)) <> Done Tile.Ice
    /\ apply d b p = state_from 1 d (hops p d k) (hops p d (S k)) b
    /\ apply d b p <> NoFuel
    /\ forall fuel, (k < fuel)%nat -> state_from fuel d p (hop p d) b = apply d b p.
Proof.
  intros Hb Hp.
  destruct (ray_end b p d Hb Hp) as (k & Hk & Hice & Hnot).
  assert (Happ : apply d b p = state_from 1 d (hops p d k) (hops p d (S k)) b).
  { unfold apply. rewrite (state_from_ray b p d k) by assumption.
    replace (slide_bound b - k)%nat with (S (slide_bound b - S k)) by lia.
    apply state_from_non_ice. exact Hnot. }
  exists k. split; [exact Hk|]. split; [exact Hice|]. split; [exact Hnot|].
  split; [exact Happ|]. split.
  - rewrite Happ. apply state_from_one_not_nofuel. exact Hnot.
  - intros fuel Hf. rewrite Happ, (state_from_ray b p d k) by assumption.
    replace (fuel - k)%nat with (S (fuel - S k)) by lia.
    apply state_from_non_ice. exact Hnot.
Qed.

(** ** C7 *)

(** C7: a token that crosses [k] ice tiles and then meets a wall stays on
    the last ice tile; with [k = 0] (a plain move into a wall) it stays where
    it was. *)
Theorem wall_stops_slide (b : Board) (d : Dir) (p : Player) (k : nat) :
  board_ok b -> isize_ok (hop p d) ->
  (forall i, (1 <= i <= k)%nat -> get_tile b (hops p d i) = Done Tile.Ice) ->
  get_tile b (hops p d (S k)) = Done Tile.Wall ->
  apply d b p = Done (Just (hops p d k)).
Proof.
  intros Hb Hp Hice HW.
  pose proof (ray_bound b p d k Hb Hp Hice) as Hk.
  unfold apply. rewrite (state_from_ray b p d k) by (unfold slide_bound; lia || assumption).
  replace (slide_bound b - k)%nat with (S (slide_bound b - S k)) by (unfold slide_bound; lia).
  cbn [state_from]. rewrite HW. reflexivity.
Qed.

(** ** Teleports *)

Lemma hd_error_app {A : Type} (l1 l2 : list A) :
  hd_error (l1 ++ l2) = match hd_error l1 with Some a => Some a | None => hd_error l2 end.
Proof. destruct l1; reflexivity. Qed.

Section TeleportScan.
Variable self : Player.
Hypothesis self_x : 0 <= x self < 2 ^ 63.
Hypothesis self_y : 0 <= y self < 2 ^ 63.

Let other (q : Player) : bool := negb (player_eqb q self).

Let row_cells (j : nat) (row : list Tile.t) (i : nat) : list Player :=
  flat_map (fun '(i', t) => if Tile.eqb t Tile.Teleport
                            then [mkPlayer (Z.of_nat i') (Z.of_nat j)] else [])
           (combine (seq i (List.length row)) row).

Lemma teleport_in_row_first (j : nat) (row : list Tile.t) : forall i,
  teleport_in_row self j row i = hd_error (filter other (row_cells j row i)).
Proof.
  unfold row_cells, other.
  induction row as [|t row IH]; intros i; [reflexivity|].
  simpl. rewrite (usize_of_isize_nonneg (x self)), (usize_of_isize_nonneg (y self)) by lia.
  destruct (Tile.eqb t Tile.Teleport); simpl; [|apply IH].
  unfold player_eqb. simpl.
  destruct ((Z.of_nat i =? x self) && (Z.of_nat j =? y self)); simpl; [apply IH|reflexivity].
Qed.

Lemma teleport_in_rows_first (rows : list (list Tile.t)) : forall j,
  teleport_in_rows self rows j
  = hd_error (filter other
               (flat_map (fun '(j', row) => row_cells j' row 0)
                         (combine (seq j (List.length rows)) rows))).
Proof.
  induction rows as [|row rows IH]; intros j; [reflexivity|].
  simpl. rewrite filter_app, hd_error_app, teleport_in_row_first.
  destruct (hd_error (filter other (row_cells j row 0))); [reflexivity|].
  apply IH.
Qed.
End TeleportScan.

Lemma teleport_first_other_lemma (b : Board) (to : Player) :
  board_ok b -> isize_ok to -> get_tile b to = Done Tile.Teleport ->
  teleport to b = match filter (fun q => negb (player_eqb q to)) (teleport_cells b) with
                  | q :: _ => Done q
                  | [] => Panic "No second teleport tile found"
                  end.
Proof.
  intros Hb Hto G.
  destruct (get_tile_stored b to Tile.Teleport Hb Hto G ltac:(discriminate) ltac:(discriminate))
    as (r & Nr & Hy & Hx & _).
  destruct Hb as [Hlen Hrows].
  pose proof (Hrows r (nth_error_In _ _ Nr)).
  unfold teleport. rewrite G. simpl.
  rewrite (teleport_in_rows_first to ltac:(lia) ltac:(lia) (tiles b) 0).
  unfold teleport_cells, enumerate.
  destruct (filter _ _); reflexivity.
Qed.

(** ** C8 *)

(** C8 (as amended): a move onto a teleport takes the token, within that one
    call of [apply], to the first teleport cell other than the one entered, in
    row-major order (rows top to bottom, cells left to right); when there is
    no other teleport cell the move panics; when there are several, the first
    is taken and nothing fails. *)
Theorem teleport_first_other (b : Board) (d : Dir) (p : Player) :
  board_ok b -> isize_ok (hop p d) -> get_tile b (hop p d) = Done Tile.Teleport ->
  apply d b p = match filter (fun q => negb (player_eqb q (hop p d))) (teleport_cells b) with
                | q :: _ => Done (Just q)
                | [] => Panic "No second teleport tile found"
                end.
Proof.
  intros Hb Hp G.
  unfold apply, slide_bound. cbn [state_from]. rewrite G. simpl.
  rewrite (teleport_first_other_lemma b (hop p d) Hb Hp G).
  destruct (filter _ _); reflexivity.
Qed.

Ltac concrete_bounds :=
  match goal with
  | |- board_ok _ =>
      split; [vm_compute; reflexivity
             | intros r Hr; simpl in Hr;
               repeat (destruct Hr as [<-|Hr]; [vm_compute; reflexivity|]); contradiction]
  | |- isize_ok _ => vm_compute; repeat split; discriminate
  | |- rectangular _ =>
      intros r Hr; simpl in Hr;
      repeat (destruct Hr as [<-|Hr]; [reflexivity|]); contradiction
  | |- tiles _ <> [] => discriminate
  end.

Lemma teleport_first_other_witness :
  apply Up three_teleports (mkPlayer 1 1)
  = match filter (fun q => negb (player_eqb q (hop (mkPlayer 1 1) Up)))
               (teleport_cells three_teleports) with
    | q :: _ => Done (Just q)
    | [] => Panic "No second teleport tile found"
    end.
Proof.
  apply teleport_first_other; [concrete_bounds | concrete_bounds | vm_compute; reflexivity].
Defined.

(** C8 fails as stated: with three teleports, stepping onto the middle one
    does not fail; the token lands on the first other one. *)
Lemma teleport_counterexample :
  get_tile three_teleports (hop (mkPlayer 1 1) Up) = Done Tile.Teleport
  /\ filter (fun q => negb (player_eqb q (mkPlayer 1 0))) (teleport_cells three_teleports)
     = [mkPlayer 0 0; mkPlayer 2 0]
  /\ apply Up three_teleports (mkPlayer 1 1) = Done (Just (mkPlayer 0 0)).
Proof. vm_compute. repeat split. Qed.

(** ** C3 *)

(** C3 (as amended): for a rectangular board of [H >= 1] rows of width [W],
    and an [isize] position: on row [-1] the lookup gives [Exit] at the exit
    column and [Wall] elsewhere; off row [-1], on row [H] or on columns [-1]
    or [W] it gives [Wall]; inside the grid it gives the stored tile; at every
    other position it panics (e.g. row [-2], or column [W + 1]). *)
Theorem get_tile_regions (b : Board) (p : Player) :
  board_ok b -> tiles b <> [] -> rectangular b -> isize_ok p ->
  let H := Z.of_nat (List.length (tiles b)) in
  let W := Z.of_nat (List.length (hd [] (tiles b))) in
  (y p = -1 ->
     get_tile b p = Done (if x p =? Z.of_nat (exit b) then Tile.Exit else Tile.Wall))
  /\ (y p <> -1 -> (y p = H \/ x p = -1 \/ x p = W) -> get_tile b p = Done Tile.Wall)
  /\ (0 <= x p < W -> 0 <= y p < H ->
      exists r t, nth_error (tiles b) (Z.to_nat (y p)) = Some r
        /\ nth_error r (Z.to_nat (x p)) = Some t /\ get_tile b p = Done t)
  /\ (y p <> -1 -> y p <> H -> x p <> -1 -> x p <> W -> ~ (0 <= x p < W /\ 0 <= y p < H) ->
      exists msg, get_tile b p = Panic msg).
Proof.
  intros [Hlen Hrows] Hne Hrect [Hx Hy] H W.
  destruct (tiles b) as [|row0 rest] eqn:Et; [contradiction|].
  assert (HW : W < 2 ^ 63) by (apply Hrows; left; reflexivity).
  unfold rectangular in Hrect. rewrite Et in Hrect. simpl hd in Hrect.
  unfold get_tile. rewrite Et. fold H. simpl hd in W. fold W.
  split; [|split; [|split]].
  - intros ->. simpl.
    destruct (x p =? Z.of_nat (exit b)) eqn:E; [|rewrite andb_false_r; reflexivity].
    apply Z.eqb_eq in E. replace (0 <=? x p) with true by (symmetry; apply Z.leb_le; lia).
    reflexivity.
  - intros Hy1 Hring.
    replace (y p =? -1) with false by (symmetry; apply Z.eqb_neq; exact Hy1).
    destruct Hring as [-> | [-> | ->]].
    + rewrite Z.eqb_refl. reflexivity.
    + destruct (y p =? H); reflexivity.
    + destruct (y p =? H); [reflexivity|]. destruct (W =? -1); [reflexivity|].
      rewrite Z.eqb_refl. reflexivity.
  - intros HxW HyH.
    replace (y p =? -1) with false by (symmetry; apply Z.eqb_neq; lia).
    replace (y p =? H) with false by (symmetry; apply Z.eqb_neq; lia).
    replace (x p =? -1) with false by (symmetry; apply Z.eqb_neq; lia).
    replace (x p =? W) with false by (symmetry; apply Z.eqb_neq; lia).
    rewrite !usize_of_isize_nonneg by lia.
    destruct (vec_get_in (row0 :: rest) (y p) ltac:(lia)) as (r & Vr & Nr).
    rewrite Vr.
    assert (Hr : List.length r = List.length row0)
      by (apply Hrect; eapply nth_error_In; exact Nr).
    destruct (vec_get_in r (x p) ltac:(rewrite Hr; lia)) as (t & Vt & Nt).
    rewrite Vt. exists r, t. auto.
  - intros Hy1 HyH Hx1 HxW Hout.
    replace (y p =? -1) with false by (symmetry; apply Z.eqb_neq; exact Hy1).
    replace (y p =? H) with false by (symmetry; apply Z.eqb_neq; exact HyH).
    replace (x p =? -1) with false by (symmetry; apply Z.eqb_neq; exact Hx1).
    replace (x p =? W) with false by (symmetry; apply Z.eqb_neq; exact HxW).
    destruct (Z.ltb_spec (y p) 0) as [Hyn|Hyn].
    + rewrite usize_of_isize_neg by lia. rewrite vec_get_out by (fold H; lia).
      eexists. reflexivity.
    + rewrite (usize_of_isize_nonneg (y p)) by lia.
      destruct (Z.ltb_spec (y p) H) as [HyH'|HyH'];
        [|rewrite vec_get_out by (fold H; lia); eexists; reflexivity].
      destruct (vec_get_in (row0 :: rest) (y p) ltac:(lia)) as (r & Vr & Nr).
      rewrite Vr.
      assert (Hr : List.length r = List.length row0)
        by (apply Hrect; eapply nth_error_In; exact Nr).
      destruct (Z.ltb_spec (x p) 0) as [Hxn|Hxn].
      * rewrite usize_of_isize_neg by lia. rewrite vec_get_out by (rewrite Hr; fold W; lia).
        eexists. reflexivity.
      * rewrite usize_of_isize_nonneg by lia.
        rewrite vec_get_out by (rewrite Hr; fold W; lia).
        eexists. reflexivity.
Qed.

Lemma get_tile_regions_witness :
  let b := simple_b1 in
  let p := mkPlayer 0 (-2) in
  let H := Z.of_nat (List.length (tiles b)) in
  let W := Z.of_nat (List.length (hd [] (tiles b))) in
  (y p = -1 ->
     get_tile b p = Done (if x p =? Z.of_nat (exit b) then Tile.Exit else Tile.Wall))
  /\ (y p <> -1 -> (y p = H \/ x p = -1 \/ x p = W) -> get_tile b p = Done Tile.Wall)
  /\ (0 <= x p < W -> 0 <= y p < H ->
      exists r t, nth_error (tiles b) (Z.to_nat (y p)) = Some r
        /\ nth_error r (Z.to_nat (x p)) = Some t /\ get_tile b p = Done t)
  /\ (y p <> -1 -> y p <> H -> x p <> -1 -> x p <> W -> ~ (0 <= x p < W /\ 0 <= y p < H) ->
      exists msg, get_tile b p = Panic msg).
Proof.
  intros b p.
  apply get_tile_regions; concrete_bounds.
Defined.

(** C3 fails as stated: two rows above the grid, and two columns right of
    it, the lookup panics ([expect("x and y should be positive")]) instead of
    giving [Wall]. *)
Lemma get_tile_counterexample :
  get_tile simple_b1 (mkPlayer 0 (-2)) = Panic "x and y should be positive"
  /\ get_tile simple_b1 (mkPlayer 4 1) = Panic "x and y should be positive".
Proof. vm_compute. split; reflexivity. Qed.

(** ** Witnesses for C6 and C7 *)

Lemma slide_terminates_witness :
  exists k, (k < slide_bound ice_b1)%nat
    /\ (forall i, (1 <= i <= k)%nat -> get_tile ice_b1 (hops (mkPlayer 0 1) Right i) = Done Tile.Ice)
    /\ get_tile ice_b1 (hops (mkPlayer 0 1) Right (S k)) <> Done Tile.Ice
    /\ apply Right ice_b1 (mkPlayer 0 1)
       = state_from 1 Right (hops (mkPlayer 0 1) Right k) (hops (mkPlayer 0 1) Right (S k)) ice_b1
    /\ apply Right ice_b1 (mkPlayer 0 1) <> NoFuel
    /\ forall fuel, (k < fuel)%nat ->
         state_from fuel Right (mkPlayer 0 1) (hop (mkPlayer 0 1) Right) ice_b1
         = apply Right ice_b1 (mkPlayer 0 1).
Proof. apply slide_terminates; concrete_bounds. Defined.

Lemma wall_stops_slide_witness :
  apply Right ice_b1 (mkPlayer 0 1) = Done (Just (hops (mkPlayer 0 1) Right 1)).
Proof.
  apply wall_stops_slide; [concrete_bounds | concrete_bounds | |].
  - intros i Hi. replace i with 1%nat by lia. vm_compute. reflexivity.
  - vm_compute. reflexivity.
Defined.

(** ** Parsing *)

Lemma find_index_none (t : ascii) (l : list ascii) : forall i,
  find_index t l i = None <-> ~ In t l.
Proof.
  induction l as [|c l IH]; intros i; simpl; [tauto|].
  destruct (Ascii.eqb c t) eqn:E.
  - apply Ascii.eqb_eq in E. subst. split; [discriminate|tauto].
  - apply Ascii.eqb_neq in E. rewrite IH. intuition.
Qed.

Lemma parse_tile_spec (c : ascii) :
  (tile_char c = true -> exists t, parse_tile c = Done t)
  /\ (tile_char c = false -> parse_tile c = Panic "not implemented").
Proof.
  destruct c as [[] [] [] [] [] [] [] []];
    split; intros Hc; try discriminate; try reflexivity; eexists; reflexivity.
Qed.

Lemma map_collect_done {A B : Type} (f : A -> Exec B) (l : list A) :
  (forall a, In a l -> exists b, f a = Done b) -> exists bs, map_collect f l = Done bs.
Proof.
  induction l as [|a l IH]; intros Hall; simpl; [eexists; reflexivity|].
  destruct (Hall a (or_introl eq_refl)) as [b' Hb]. rewrite Hb. simpl.
  destruct IH as [bs Hbs]; [intros; apply Hall; right; assumption|].
  rewrite Hbs. eexists. reflexivity.
Qed.

Lemma map_collect_panic {A B : Type} (f : A -> Exec B) (l : list A) (msg : string) :
  (forall a, f a <> NoFuel) -> (forall a m, f a = Panic m -> m = msg) ->
  (exists a m, In a l /\ f a = Panic m) ->
  map_collect f l = Panic msg.
Proof.
  intros Hf Hmsg. induction l as [|a l IH]; intros (a' & m & Hin & Ha); [contradiction|].
  simpl. specialize (Hf a).
  destruct (f a) as [b'| m'|] eqn:Fa; [|rewrite (Hmsg a m' Fa); reflexivity|contradiction].
  destruct Hin as [<-|Hin]; [congruence|].
  rewrite IH by (exists a', m; auto). reflexivity.
Qed.

Lemma map_collect_panic_from {A B : Type} (f : A -> Exec B) (l : list A) (m : string) :
  map_collect f l = Panic m -> exists a, In a l /\ f a = Panic m.
Proof.
  induction l as [|a l IH]; simpl; [discriminate|].
  destruct (f a) as [b'| m'|] eqn:Fa; simpl.
  - destruct (map_collect f l) as [bs| m''|] eqn:R; simpl; try discriminate.
    intros [= <-]. destruct IH as (a' & Hin & Ha'); [reflexivity|]. eauto.
  - intros [= <-]. eauto.
  - discriminate.
Qed.

Lemma map_collect_not_nofuel {A B : Type} (f : A -> Exec B) (l : list A) :
  (forall a, f a <> NoFuel) -> map_collect f l <> NoFuel.
Proof.
  intros Hf. induction l as [|a l IH]; simpl; [discriminate|].
  specialize (Hf a). destruct (f a); simpl; [|discriminate|contradiction].
  destruct (map_collect f l); simpl; [discriminate|discriminate|contradiction].
Qed.

Lemma parse_tile_not_nofuel (c : ascii) : parse_tile c <> NoFuel.
Proof.
  destruct (tile_char c) eqn:Hc.
  - destruct (proj1 (parse_tile_spec c) Hc) as [t ->]. discriminate.
  - rewrite (proj2 (parse_tile_spec c) Hc). discriminate.
Qed.

Lemma find_player_none (rows : list (list ascii)) : forall j,
  find_player rows j = None <-> forall row, In row rows -> ~ In "R"%char row.
Proof.
  induction rows as [|r rows IH]; intros j; simpl; [tauto|].
  destruct (find_index "R" r 0) eqn:E.
  - split; [discriminate|]. intros Hall. exfalso.
    apply (Hall r (or_introl eq_refl)).
    destruct (in_dec ascii_dec "R"%char r) as [Hin|Hn]; [exact Hin|].
    apply (find_index_none _ _ 0) in Hn. congruence.
  - apply find_index_none in E. rewrite IH.
    split; [intros Hall row [<-|Hin]; auto | intros Hall row Hin; auto].
Qed.

(** ** C9 *)

(** C9 (as amended): [Board::parse] returns [Err(InputEmpty)] exactly for an
    input without lines and [Err(NoExit)] exactly when the first line has no
    ['x'], and no other error; [Player::parse] returns [Err(NoPlayer)]
    exactly when no line after the first holds an ['R'].  An unrecognised
    tile character (after a valid first line) makes [Board::parse] panic
    ([unimplemented!]) rather than return an error, and the number of
    teleporters is not checked: every input whose tile lines use only tile
    characters parses. *)
Theorem parse_errors (s : string) :
  (Board_parse s = Done (Err InputEmpty) <-> lines s = [])
  /\ (Board_parse s = Done (Err NoExit)
      <-> exists l rest, lines s = l :: rest /\ ~ In "x"%char l)
  /\ (forall e, Board_parse s = Done (Err e) -> e = InputEmpty \/ e = NoExit)
  /\ (forall l rest, lines s = l :: rest -> In "x"%char l ->
        ((exists row c, In row rest /\ In c row /\ tile_char c = false) ->
           Board_parse s = Panic "not implemented")
        /\ ((forall row c, In row rest -> In c row -> tile_char c = true) ->
              exists b, Board_parse s = Done (Ok b)))
  /\ (Player_parse s = Err NoPlayer
      <-> forall row, In row (tl (lines s)) -> ~ In "R"%char row).
Proof.
  assert (Hbind : forall (m : Exec (list (list Tile.t))) e (ex : nat),
             (ts <- m ;; Done (Ok (mkBoard ts ex))) <> Done (Err e))
    by (intros m e ex; destruct m; discriminate).
  unfold Board_parse. split; [|split; [|split; [|split]]].
  - destruct (lines s) as [|l rest]; [split; reflexivity|].
    split; [|discriminate].
    destruct (find_index "x" l 0); [intros H; exfalso; exact (Hbind _ _ _ H)|discriminate].
  - destruct (lines s) as [|l rest]; [split; [discriminate|intros (? & ? & ? & _); discriminate]|].
    destruct (find_index "x" l 0) eqn:E.
    + split; [intros H; exfalso; exact (Hbind _ _ _ H)|].
      intros (l' & rest' & [= <- <-] & Hn).
      apply (find_index_none _ _ 0) in Hn. congruence.
    + split; [|reflexivity]. intros _. exists l, rest. split; [reflexivity|].
      apply (find_index_none _ _ 0). exact E.
  - intros e. destruct (lines s) as [|l rest]; [intros [= <-]; auto|].
    destruct (find_index "x" l 0); [intros H; exfalso; exact (Hbind _ _ _ H)|].
    intros [= <-]. auto.
  - intros l rest -> Hx.
    destruct (find_index "x" l 0) eqn:E;
      [|apply (find_index_none _ _ 0) in E; contradiction].
    split.
    + intros (row & c & Hrow & Hc & Hbad).
      simpl. rewrite (map_collect_panic (map_collect parse_tile) rest "not implemented").
      * reflexivity.
      * intros row'. apply map_collect_not_nofuel, parse_tile_not_nofuel.
      * intros row' m Hm. apply map_collect_panic_from in Hm as (c' & _ & Hc').
        destruct (tile_char c') eqn:Tc.
        -- destruct (proj1 (parse_tile_spec c') Tc) as [t' Ht']. congruence.
        -- rewrite (proj2 (parse_tile_spec c') Tc) in Hc'. congruence.
      * exists row, "not implemented"%string. split; [exact Hrow|].
        apply map_collect_panic; [exact parse_tile_not_nofuel| |].
        -- intros c' m Hc'. destruct (tile_char c') eqn:Tc.
           ++ destruct (proj1 (parse_tile_spec c') Tc) as [t' Ht']. congruence.
           ++ rewrite (proj2 (parse_tile_spec c') Tc) in Hc'. congruence.
        -- exists c, "not implemented"%string. split; [exact Hc|].
           apply (proj2 (parse_tile_spec c)). exact Hbad.
    + intros Hgood.
      destruct (map_collect_done (map_collect parse_tile) rest) as [ts Hts].
      * intros row Hrow. apply map_collect_done. intros c Hc.
        apply (proj1 (parse_tile_spec c)). exact (Hgood row c Hrow Hc).
      * rewrite Hts. eexists. reflexivity.
  - unfold Player_parse. rewrite <- (find_player_none _ 0).
    destruct (find_player (tl (lines s)) 0); split; congruence.
Qed.

Lemma parse_errors_witness :
  let s := join_lines ["x"; "Q"]%string in
  (Board_parse s = Done (Err InputEmpty) <-> lines s = [])
  /\ (Board_parse s = Done (Err NoExit)
      <-> exists l rest, lines s = l :: rest /\ ~ In "x"%char l)
  /\ (forall e, Board_parse s = Done (Err e) -> e = InputEmpty \/ e = NoExit)
  /\ (forall l rest, lines s = l :: rest -> In "x"%char l ->
        ((exists row c, In row rest /\ In c row /\ tile_char c = false) ->
           Board_parse s = Panic "not implemented")
        /\ ((forall row c, In row rest -> In c row -> tile_char c = true) ->
              exists b, Board_parse s = Done (Ok b)))
  /\ (Player_parse s = Err NoPlayer
      <-> forall row, In row (tl (lines s)) -> ~ In "R"%char row).
Proof. intros s. exact (parse_errors s). Defined.

(** C9 fails as stated: an unknown tile character is a panic, not an error
    value; a board with a single teleporter parses, and the missing partner
    shows only in the search, as a panic. *)
Lemma parse_errors_counterexample :
  Board_parse (join_lines ["x"; "Q"]%string) = Panic "not implemented"
  /\ Board_parse (join_lines ["x"; "T"; "R"]%string)
     = Done (Ok (mkBoard [[Tile.Teleport]; [Tile.None]] 0))
  /\ solve_puzzle 100 (join_lines ["x"; "T"; "R"; ""; "x"; "."; "R"]%string)
     = Panic "No second teleport tile found".
Proof. vm_compute. repeat split. Qed.

(** ** C10 *)

Lemma split_once_nn_none (s : string) :
  (forall i, ~ (String.get i s = Some nl /\ String.get (S i) s = Some nl)) ->
  split_once_nn s = None.
Proof.
  induction s as [|c s IH]; intros Hno; [reflexivity|].
  assert (Hs : split_once_nn s = None) by (apply IH; intros i; exact (Hno (S i))).
  simpl. rewrite Hs.
  destruct s as [|c' s']; [reflexivity|].
  destruct (Ascii.eqb c nl) eqn:E1, (Ascii.eqb c' nl) eqn:E2; simpl; try reflexivity.
  apply Ascii.eqb_eq in E1, E2. subst.
  exfalso. apply (Hno 0%nat). split; reflexivity.
Qed.

(** C10 (as amended): [solve_puzzle] takes only the two-board input: when
    the input holds no blank line (no two consecutive ['\n']) it panics with
    "Couldn't find second board" instead of returning a [Result]. *)
Theorem one_board_input_panics (fuel : nat) (input : string) :
  (forall i, ~ (String.get i input = Some nl /\ String.get (S i) input = Some nl)) ->
  solve_puzzle fuel input = Panic "Couldn't find second board".
Proof.
  intros Hno. unfold solve_puzzle. rewrite (split_once_nn_none input Hno). reflexivity.
Qed.

Lemma one_board_input_panics_witness :
  solve_puzzle 100 (join_lines ["x"; "R"]%string) = Panic "Couldn't find second board".
Proof.
  apply one_board_input_panics.
  intros i. destruct i as [|[|[|i]]]; vm_compute; intros [H1 H2]; discriminate.
Defined.

(** C10 fails as stated: a one-board input makes [solve_puzzle] panic. *)
Lemma one_board_counterexample :
  solve_puzzle 100 (join_lines [" x"; "..."; ".R."]%string) = Panic "Couldn't find second board".
Proof. vm_compute. reflexivity. Qed.

(** * Further properties of the code *)

(** ** Enumerations and grid cells *)

Lemma in_combine_seq {A : Type} (l : list A) : forall k j a,
  In (j, a) (combine (seq k (List.length l)) l) <-> (k <= j)%nat /\ nth_error l (j - k) = Some a.
Proof.
  induction l as [|a0 l IH]; intros k j a; simpl.
  - split; [tauto|]. intros [_ H]. destruct (j - k)%nat; discriminate.
  - rewrite IH. split.
    + intros [[= <- <-]|[Hk Hn]].
      * rewrite Nat.sub_diag. split; [lia|reflexivity].
      * split; [lia|]. replace (j - k)%nat with (S (j - S k)) by lia. exact Hn.
    + intros [Hk Hn]. destruct (Nat.eq_dec j k) as [->|Hne].
      * rewrite Nat.sub_diag in Hn. injection Hn as ->. left. reflexivity.
      * right. split; [lia|]. replace (j - k)%nat with (S (j - S k)) in Hn by lia. exact Hn.
Qed.

Lemma in_enumerate {A : Type} (l : list A) (j : nat) (a : A) :
  In (j, a) (enumerate l) <-> nth_error l j = Some a.
Proof.
  unfold enumerate. rewrite in_combine_seq, Nat.sub_0_r. split; [tauto|]. intros H; split; [lia|exact H].
Qed.

Lemma in_grid_spec (b : Board) (p : Player) :
  in_grid b p = true <->
  exists r, nth_error (tiles b) (Z.to_nat (y p)) = Some r /\ 0 <= y p /\ 0 <= x p < Z.of_nat (List.length r).
Proof.
  unfold in_grid. rewrite !andb_true_iff, Z.leb_le, Z.leb_le.
  destruct (nth_error (tiles b) (Z.to_nat (y p))) as [r|].
  - rewrite Z.ltb_lt. split.
    + intros [[Hy Hx] Hr]. exists r. auto.
    + intros (r' & [= <-] & Hy & Hx). lia.
  - split; [intros [_ H]; discriminate | intros (r' & H & _); discriminate].
Qed.

Lemma in_cells (b : Board) (p : Player) : In p (cells b) <-> in_grid b p = true.
Proof.
  rewrite in_grid_spec. unfold cells. rewrite in_flat_map. split.
  - intros ([j row] & Hin & Hp). apply in_enumerate in Hin.
    apply in_map_iff in Hp as (i & <- & Hi). apply in_seq in Hi. simpl.
    rewrite Nat2Z.id. exists row. split; [exact Hin|lia].
  - intros (r & Hr & Hy & Hx). exists (Z.to_nat (y p), r). split; [apply in_enumerate; exact Hr|].
    apply in_map_iff. exists (Z.to_nat (x p)). split.
    + destruct p as [px py]. simpl in *. f_equal; lia.
    + apply in_seq. lia.
Qed.

Lemma length_cells (b : Board) : List.length (cells b) = list_sum (map (@List.length _) (tiles b)).
Proof.
  unfold cells, enumerate.
  assert (H : forall (rows : list (list Tile.t)) k,
    List.length (flat_map (fun '(j, row) =>
                             map (fun i => mkPlayer (Z.of_nat i) (Z.of_nat j)) (seq 0 (List.length row)))
                          (combine (seq k (List.length rows)) rows))
    = list_sum (map (@List.length _) rows)).
  { induction rows as [|row rows IH]; intros k; [reflexivity|].
    simpl. rewrite length_app, length_map, length_seq, IH. reflexivity. }
  apply H.
Qed.

Lemma teleport_cells_in (b : Board) (q : Player) :
  In q (teleport_cells b) ->
  exists r, nth_error (tiles b) (Z.to_nat (y q)) = Some r
    /\ nth_error r (Z.to_nat (x q)) = Some Tile.Teleport /\ 0 <= x q /\ 0 <= y q.
Proof.
  unfold teleport_cells. rewrite in_flat_map. intros ([j row] & Hj & Hq).
  apply in_enumerate in Hj. apply in_flat_map in Hq as ([i t] & Hi & Hq).
  apply in_enumerate in Hi.
  destruct (Tile.eqb t Tile.Teleport) eqn:E; [|contradiction].
  destruct Hq as [<-|[]]. simpl. rewrite !Nat2Z.id.
  destruct t; try discriminate. exists row. split; [exact Hj|]. split; [exact Hi|lia].
Qed.

Lemma teleport_cells_in_grid (b : Board) (q : Player) :
  In q (teleport_cells b) -> in_grid b q = true.
Proof.
  intros Hq. destruct (teleport_cells_in b q Hq) as (r & Hr & Ht & Hx & Hy).
  apply in_grid_spec. exists r. split; [exact Hr|]. split; [exact Hy|].
  assert (Hlt : (Z.to_nat (x q) < List.length r)%nat) by (apply nth_error_Some; rewrite Ht; discriminate).
  lia.
Qed.

Lemma in_grid_bounds (b : Board) (p : Player) :
  board_ok b -> in_grid b p = true -> 0 <= x p < 2 ^ 63 - 1 /\ 0 <= y p < 2 ^ 63 - 1.
Proof.
  intros [Hlen Hrows] G. apply in_grid_spec in G as (r & Hr & Hy & Hx).
  pose proof (Hrows r (nth_error_In _ _ Hr)).
  assert (Hlt : (Z.to_nat (y p) < List.length (tiles b))%nat) by (apply nth_error_Some; rewrite Hr; discriminate).
  lia.
Qed.

Lemma in_grid_hop_ok (b : Board) (p : Player) (d : Dir) :
  board_ok b -> in_grid b p = true -> isize_ok (hop p d).
Proof.
  intros Hb G. pose proof (in_grid_bounds b p Hb G). unfold isize_ok. destruct d; simpl; lia.
Qed.

Lemma stored_in_grid (b : Board) (q : Player) (t : Tile.t) :
  board_ok b -> isize_ok q -> get_tile b q = Done t -> t <> Tile.Wall -> t <> Tile.Exit ->
  in_grid b q = true.
Proof.
  intros Hb Hq G HW HE.
  destruct (get_tile_stored b q t Hb Hq G HW HE) as (r & Hr & Hy & Hx & _).
  apply in_grid_spec. exists r. split; [exact Hr|lia].
Qed.

Lemma hd_filter_in {A : Type} (f : A -> bool) (l : list A) (a : A) (rest : list A) :
  filter f l = a :: rest -> In a l.
Proof.
  intros F. assert (H : In a (filter f l)) by (rewrite F; left; reflexivity).
  apply filter_In in H. tauto.
Qed.

(** ** Moves stay on the grid *)

Lemma apply_ray (b : Board) (d : Dir) (p : Player) :
  board_ok b -> isize_ok (hop p d) ->
  exists k, (forall i, (1 <= i <= k)%nat -> get_tile b (hops p d i) = Done Tile.Ice)
    /\ get_tile b (hops p d (S k)) <> Done Tile.Ice
    /\ apply d b p = state_from 1 d (hops p d k) (hops p d (S k)) b.
Proof.
  intros Hb Hp.
  destruct (ray_end b p d Hb Hp) as (k & Hk & Hice & Hnot).
  exists k. split; [exact Hice|]. split; [exact Hnot|].
  unfold apply. rewrite (state_from_ray b p d k) by assumption.
  replace (slide_bound b - k)%nat with (S (slide_bound b - S k)) by lia.
  apply state_from_non_ice. exact Hnot.
Qed.

Lemma apply_not_nofuel (b : Board) (d : Dir) (p : Player) :
  board_ok b -> isize_ok (hop p d) -> apply d b p <> NoFuel.
Proof.
  intros Hb Hp. destruct (apply_ray b d p Hb Hp) as (k & _ & Hnot & ->).
  apply state_from_one_not_nofuel. exact Hnot.
Qed.

Lemma state_from_one_just (b : Board) (d : Dir) (from to q : Player) :
  state_from 1 d from to b = Done (Just q) ->
  (get_tile b to = Done Tile.None /\ q = to)
  \/ (get_tile b to = Done Tile.Wall /\ q = from)
  \/ (get_tile b to = Done Tile.Teleport /\ teleport to b = Done q).
Proof.
  cbn [state_from]. unfold bind.
  destruct (get_tile b to) as [t| |]; try discriminate.
  destruct t; try (simpl; discriminate).
  - intros [= <-]. auto.
  - intros [= <-]. auto.
  - destruct (teleport to b) as [q'| |]; try discriminate. intros [= <-]. auto.
Qed.

Lemma state_from_one_success (b : Board) (d : Dir) (from to : Player) :
  state_from 1 d from to b = Done Success -> get_tile b to = Done Tile.Exit.
Proof.
  cbn [state_from]. unfold bind.
  destruct (get_tile b to) as [t| |]; try discriminate.
  destruct t; try (simpl; discriminate); try reflexivity.
  destruct (teleport to b); discriminate.
Qed.

(** [Exit] is only found above the grid, when no cell stores it. *)
Lemma get_tile_exit (b : Board) (q : Player) :
  (forall r, In r (tiles b) -> ~ In Tile.Exit r) ->
  get_tile b q = Done Tile.Exit -> y q = -1 /\ x q = Z.of_nat (exit b).
Proof.
  intros Hno G. unfold get_tile in G.
  destruct (y q =? -1) eqn:Ey.
  - destruct ((0 <=? x q) && (x q =? Z.of_nat (exit b))) eqn:Ex; [|discriminate G].
    apply Z.eqb_eq in Ey. apply andb_true_iff in Ex as [_ Ex].
    apply Z.eqb_eq in Ex. auto.
  - destruct (y q =? Z.of_nat (List.length (tiles b))); [discriminate G|].
    destruct (x q =? -1); [discriminate G|].
    destruct (tiles b) as [|row0 rest] eqn:Et; [discriminate G|].
    destruct (x q =? Z.of_nat (List.length row0)); [discriminate G|].
    rewrite <- Et in G, Hno.
    destruct (vec_get (tiles b) (usize_of_isize (y q))) as [r|] eqn:Er; [|discriminate G].
    destruct (vec_get r (usize_of_isize (x q))) as [t|] eqn:Ex; [|discriminate G].
    injection G as ->. exfalso.
    apply vec_get_some in Er as [_ Er]. apply vec_get_some in Ex as [_ Ex].
    exact (Hno r (nth_error_In _ _ Er) (nth_error_In _ _ Ex)).
Qed.

Lemma apply_in_grid (b : Board) (d : Dir) (p q : Player) :
  board_ok b -> in_grid b p = true -> apply d b p = Done (Just q) -> in_grid b q = true.
Proof.
  intros Hb Hp A.
  destruct (apply_ray b d p Hb (in_grid_hop_ok b p d Hb Hp)) as (k & Hice & Hnot & Happ).
  assert (Hfrom : in_grid b (hops p d k) = true).
  { destruct k as [|k]; [exact Hp|].
    destruct (ray_in_grid b p d (S k) Hb (in_grid_hop_ok b p d Hb Hp) Hice (S k) ltac:(lia))
      as (Hok & _).
    apply (stored_in_grid b _ Tile.Ice Hb Hok (Hice (S k) ltac:(lia))); discriminate. }
  assert (Hto : isize_ok (hops p d (S k))) by exact (in_grid_hop_ok b _ d Hb Hfrom).
  rewrite Happ in A.
  destruct (state_from_one_just _ _ _ _ _ A) as [[G ->] | [[G ->] | [G T]]].
  - apply (stored_in_grid b _ Tile.None Hb Hto G); discriminate.
  - exact Hfrom.
  - rewrite (teleport_first_other_lemma b _ Hb Hto G) in T.
    destruct (filter _ _) as [|q' rest] eqn:F; [discriminate|]. injection T as <-.
    apply teleport_cells_in_grid. exact (hd_filter_in _ _ _ _ F).
Qed.

(** X6: a move never takes a token off its board: when a token on a cell
    of the grid moves and stays on the board ([Just q]), [q] is again a cell
    of the grid.  Walls bounce it back, ice slides stop on a cell, and
    teleports land on a teleport cell. *)
Theorem apply_stays_in_grid (b : Board) (d : Dir) (p q : Player) :
  board_ok b -> in_grid b p = true -> apply d b p = Done (Just q) -> in_grid b q = true.
Proof. exact (apply_in_grid b d p q). Qed.

(** X7: on a board whose cells hold no [Exit] tile (as every parsed board),
    a token on the grid leaves through the exit only by a move [Up] made in
    the exit column: any move that gives [Success] is [Up], from a cell whose
    column is [exit]. *)
Theorem exit_only_upward (b : Board) (d : Dir) (p : Player) :
  board_ok b -> (forall r, In r (tiles b) -> ~ In Tile.Exit r) -> in_grid b p = true ->
  apply d b p = Done Success -> d = Up /\ x p = Z.of_nat (exit b).
Proof.
  intros Hb Hno Hp A.
  destruct (apply_ray b d p Hb (in_grid_hop_ok b p d Hb Hp)) as (k & _ & _ & Happ).
  rewrite Happ in A. apply state_from_one_success in A.
  apply (get_tile_exit b _ Hno) in A as [Hy Hx].
  apply in_grid_spec in Hp as (r & _ & Hy0 & _).
  rewrite hops_coords in Hy, Hx.
  destruct d; simpl in Hy, Hx; [split; [reflexivity|exact Hx]|lia|lia|lia].
Qed.

(** ** Termination of the search *)

Lemma find_map_not_nofuel {A B : Type} (f : A -> Exec (option B)) (l : list A) :
  (forall a, In a l -> f a <> NoFuel) -> find_map f l <> NoFuel.
Proof.
  induction l as [|a l IH]; intros Hf; simpl; [discriminate|].
  pose proof (Hf a (or_introl eq_refl)) as Ha.
  destruct (f a) as [[b|]| |]; simpl; try discriminate; [|contradiction].
  apply IH. intros a' Hin. apply Hf. right. exact Hin.
Qed.

Lemma step_not_nofuel b1 p1 b2 p2 vis hist dir :
  apply dir b1 p1 <> NoFuel -> apply dir b2 p2 <> NoFuel ->
  step b1 p1 b2 p2 vis hist dir <> NoFuel.
Proof.
  intros A1 A2. unfold step, bind.
  destruct (apply dir b1 p1) as [s1| |]; [|discriminate|contradiction].
  destruct (apply dir b2 p2) as [s2| |]; [|discriminate|contradiction].
  destruct s1, s2; try discriminate. destruct contains; discriminate.
Qed.

(** Each recursive call adds a new joint position of the two grids to the
    visited set, so the depth of the recursion is bounded by their number. *)
Lemma solve_not_nofuel (b1 b2 : Board) :
  board_ok b1 -> board_ok b2 ->
  forall k p1 p2 vis hist,
    in_grid b1 p1 = true -> in_grid b2 p2 = true -> NoDup vis ->
    (forall s, In s vis -> In s (list_prod (cells b1) (cells b2))) ->
    (search_bound b1 b2 < k + List.length vis)%nat ->
    solve k b1 p1 b2 p2 vis hist <> NoFuel.
Proof.
  intros Hb1 Hb2. induction k as [|k IH]; intros p1 p2 vis hist G1 G2 ND Hsub Hlt.
  - exfalso. pose proof (NoDup_incl_length ND Hsub) as Hl.
    rewrite length_prod in Hl. unfold search_bound in Hlt. lia.
  - cbn [solve]. apply find_map_not_nofuel. intros dir _.
    pose proof (step_not_nofuel b1 p1 b2 p2 vis hist dir
                  (apply_not_nofuel b1 dir p1 Hb1 (in_grid_hop_ok b1 p1 dir Hb1 G1))
                  (apply_not_nofuel b2 dir p2 Hb2 (in_grid_hop_ok b2 p2 dir Hb2 G2))) as Hs.
    unfold bind.
    destruct (step b1 p1 b2 p2 vis hist dir) as [c| |] eqn:Es; [|discriminate|contradiction].
    destruct c as [h| |q1 q2 v' h']; try discriminate.
    destruct (step_descend _ _ _ _ _ _ _ _ _ _ _ Es) as (A1 & A2 & C & -> & _).
    pose proof (apply_in_grid b1 dir p1 q1 Hb1 G1 A1) as Q1.
    pose proof (apply_in_grid b2 dir p2 q2 Hb2 G2 A2) as Q2.
    apply IH; [exact Q1|exact Q2| | |].
    + constructor; [rewrite <- contains_In, C; discriminate | exact ND].
    + intros s [<-|Hin]; [apply in_prod; apply in_cells; assumption | auto].
    + simpl. lia.
Qed.

(** X8: started as [solve_puzzle] starts it, from a cell of each grid,
    [solve] returns (a result or a panic) within [search_bound b1 b2] levels
    of recursion, the number of joint positions of the two grids: with that
    much fuel the model never runs out, and any more fuel gives the same
    result. *)
Theorem solve_terminates (b1 b2 : Board) (p1 p2 : Player) (fuel : nat) :
  board_ok b1 -> board_ok b2 -> in_grid b1 p1 = true -> in_grid b2 p2 = true ->
  (search_bound b1 b2 <= fuel)%nat ->
  solve fuel b1 p1 b2 p2 [(p1, p2)] [] <> NoFuel
  /\ forall m, (fuel <= m)%nat ->
       solve m b1 p1 b2 p2 [(p1, p2)] [] = solve fuel b1 p1 b2 p2 [(p1, p2)] [].
Proof.
  intros Hb1 Hb2 G1 G2 Hf.
  assert (Hn : solve fuel b1 p1 b2 p2 [(p1, p2)] [] <> NoFuel).
  { apply (solve_not_nofuel b1 b2 Hb1 Hb2); [exact G1|exact G2| | |].
    - constructor; [intros []|constructor].
    - intros s [<-|[]]. apply in_prod; apply in_cells; assumption.
    - simpl. lia. }
  split; [exact Hn|]. intros m Hm. apply solve_fuel_mono; assumption.
Qed.

(** ** Solutions and the positions they pass through *)

Section Trails.
Variables b1 b2 : Board.

(** From any joint position a solution passes through, the rest of it is a
    solution whose positions end the list of the whole. *)
Lemma trail_suffix (e : list Dir) : forall q1 q2,
  replays b1 q1 b2 q2 e = true ->
  forall s, In s ((q1, q2) :: trail b1 q1 b2 q2 e) ->
  exists e' pre, replays b1 (fst s) b2 (snd s) e' = true
    /\ (q1, q2) :: trail b1 q1 b2 q2 e = pre ++ s :: trail b1 (fst s) b2 (snd s) e'.
Proof.
  induction e as [|d e IH]; intros q1 q2 R s Hs; [discriminate|].
  destruct Hs as [<-|Hs].
  - exists (d :: e), []. split; [exact R|reflexivity].
  - simpl in R, Hs |- *.
    destruct (apply d b1 q1) as [[ | | r1]| |]; try contradiction;
      destruct (apply d b2 q2) as [[ | | r2]| |]; try contradiction.
    destruct (IH r1 r2 R s Hs) as (e' & pre & R' & Heq).
    exists e', ((q1, q2) :: pre). split; [exact R'|]. simpl. rewrite <- Heq. reflexivity.
Qed.

(** Cutting the loops out of a solution leaves a solution that enters no
    joint position twice and never comes back to the start. *)
Lemma replays_loop_free (ds : list Dir) : forall p1 p2,
  replays b1 p1 b2 p2 ds = true ->
  exists e, replays b1 p1 b2 p2 e = true /\ NoDup ((p1, p2) :: trail b1 p1 b2 p2 e).
Proof.
  induction ds as [|d ds IH]; intros p1 p2 R; [discriminate|].
  simpl in R.
  destruct (apply d b1 p1) as [[ | | q1]| |] eqn:A1; try discriminate;
    destruct (apply d b2 p2) as [[ | | q2]| |] eqn:A2; try discriminate.
  - (* both exit on this move *)
    exists [d]. split; [simpl; rewrite A1, A2; reflexivity|].
    simpl. rewrite A1. constructor; [intros []|constructor].
  - destruct (IH q1 q2 R) as (e & Re & ND).
    destruct (contains ((q1, q2) :: trail b1 q1 b2 q2 e) (p1, p2)) eqn:Hc.
    + apply contains_In in Hc as Hin.
      destruct (trail_suffix e q1 q2 Re _ Hin) as (e' & pre & R' & Heq).
      exists e'. split; [exact R'|]. simpl in Heq |- *.
      rewrite Heq in ND. apply NoDup_app_remove_l in ND. exact ND.
    + exists (d :: e). split; [simpl; rewrite A1, A2; exact Re|].
      simpl. rewrite A1, A2. constructor; [|exact ND].
      rewrite <- contains_In, Hc. discriminate.
Qed.

(** A solution that enters no joint position twice, nor one of [vis], is a
    success of the search tree below a call with visited set [vis]. *)
Lemma replays_wins (e : list Dir) : forall p1 p2 vis hist,
  replays b1 p1 b2 p2 e = true -> NoDup (trail b1 p1 b2 p2 e) ->
  (forall s, In s (trail b1 p1 b2 p2 e) -> ~ In s vis) ->
  wins b1 b2 p1 p2 vis hist (hist ++ e).
Proof.
  induction e as [|d e IH]; intros p1 p2 vis hist R ND Hdis; [discriminate|].
  simpl in R, ND, Hdis.
  destruct (apply d b1 p1) as [[ | | q1]| |] eqn:A1; try discriminate;
    destruct (apply d b2 p2) as [[ | | q2]| |] eqn:A2; try discriminate.
  - destruct e; [|discriminate].
    apply (wins_found _ _ _ _ _ _ d). unfold step, bind. rewrite A1, A2. reflexivity.
  - inversion ND as [|s l Hs ND']; subst.
    assert (C : contains vis (q1, q2) = false).
    { destruct (contains vis (q1, q2)) eqn:C; [|reflexivity].
      apply contains_In in C. exfalso. exact (Hdis _ (or_introl eq_refl) C). }
    apply (wins_descend _ _ _ _ _ _ d q1 q2 ((q1, q2) :: vis) (hist ++ [d])).
    + unfold step, bind. rewrite A1, A2, C. reflexivity.
    + replace (hist ++ d :: e) with ((hist ++ [d]) ++ e) by (rewrite <- app_assoc; reflexivity).
      apply IH; [exact R|exact ND'|].
      intros s Hin [<-|Hv]; [exact (Hs Hin)|exact (Hdis s (or_intror Hin) Hv)].
Qed.

(** The successes of the search tree never pass through a joint position
    twice, nor through one of the visited set. *)
Lemma wins_loop_free p1 p2 vis hist h :
  wins b1 b2 p1 p2 vis hist h ->
  exists ds, h = hist ++ ds /\ NoDup (trail b1 p1 b2 p2 ds)
    /\ forall s, In s (trail b1 p1 b2 p2 ds) -> ~ In s vis.
Proof.
  induction 1 as [p1 p2 vis hist dir h Es | p1 p2 vis hist dir q1 q2 v' h' h Es W IH].
  - destruct (step_found _ _ _ _ _ _ _ _ Es) as (A1 & A2 & ->).
    exists [dir]. simpl. rewrite A1. split; [reflexivity|]. split; [constructor|].
    intros s [].
  - destruct (step_descend _ _ _ _ _ _ _ _ _ _ _ Es) as (A1 & A2 & C & -> & ->).
    destruct IH as (ds & -> & ND & Hdis).
    exists (dir :: ds). simpl. rewrite A1, A2.
    split; [rewrite <- app_assoc; reflexivity|]. split.
    + constructor; [|exact ND].
      intros Hin. exact (Hdis _ Hin (or_introl eq_refl)).
    + intros s [<-|Hin] Hv.
      * rewrite <- contains_In, C in Hv. discriminate.
      * exact (Hdis s Hin (or_intror Hv)).
Qed.

Lemma replays_trail_length (ds : list Dir) : forall p1 p2,
  replays b1 p1 b2 p2 ds = true -> S (List.length (trail b1 p1 b2 p2 ds)) = List.length ds.
Proof.
  induction ds as [|d ds IH]; intros p1 p2 R; [discriminate|].
  simpl in R |- *.
  destruct (apply d b1 p1) as [[ | | q1]| |]; try discriminate;
    destruct (apply d b2 p2) as [[ | | q2]| |]; try discriminate.
  - destruct ds; [reflexivity|discriminate].
  - simpl. rewrite (IH q1 q2 R). reflexivity.
Qed.

Lemma trail_in_grid (ds : list Dir) : forall p1 p2,
  board_ok b1 -> board_ok b2 -> in_grid b1 p1 = true -> in_grid b2 p2 = true ->
  forall s, In s ((p1, p2) :: trail b1 p1 b2 p2 ds) -> In s (list_prod (cells b1) (cells b2)).
Proof.
  induction ds as [|d ds IH]; intros p1 p2 Hb1 Hb2 G1 G2 s Hs.
  - destruct Hs as [<-|[]]. apply in_prod; apply in_cells; assumption.
  - destruct Hs as [<-|Hs]; [apply in_prod; apply in_cells; assumption|].
    simpl in Hs.
    destruct (apply d b1 p1) as [[ | | q1]| |] eqn:A1; try contradiction;
      destruct (apply d b2 p2) as [[ | | q2]| |] eqn:A2; try contradiction.
    exact (IH q1 q2 Hb1 Hb2 (apply_in_grid b1 d p1 q1 Hb1 G1 A1)
              (apply_in_grid b2 d p2 q2 Hb2 G2 A2) s Hs).
Qed.
End Trails.

(** ** Strings and parsing *)

Lemma length_list_ascii (s : string) : List.length (list_ascii_of_string s) = String.length s.
Proof. induction s as [|c s IH]; simpl; [reflexivity|rewrite IH; reflexivity]. Qed.

Lemma list_ascii_append (s1 s2 : string) :
  list_ascii_of_string (s1 ++ s2) = list_ascii_of_string s1 ++ list_ascii_of_string s2.
Proof. induction s1 as [|c s1 IH]; simpl; [reflexivity|rewrite IH; reflexivity]. Qed.

Lemma string_length_append (s1 s2 : string) :
  String.length (s1 ++ s2) = (String.length s1 + String.length s2)%nat.
Proof. induction s1 as [|c s1 IH]; simpl; [reflexivity|rewrite IH; reflexivity]. Qed.

(** The piece closed by a ['\n'] is no longer than the characters read. *)
Lemma length_closed_piece (cur : list ascii) :
  (List.length (match cur with
                | c0 :: cur' => if Ascii.eqb c0 cr then rev cur' else rev cur
                | [] => []
                end) <= List.length cur)%nat.
Proof.
  destruct cur as [|c0 cur']; [simpl; lia|].
  destruct (Ascii.eqb c0 cr); rewrite length_rev; simpl; lia.
Qed.

Lemma lines_aux_count (s cur : list ascii) :
  (List.length (lines_aux s cur) <= List.length s + List.length cur)%nat.
Proof.
  revert cur. induction s as [|c s IH]; intros cur; simpl.
  - destruct cur; simpl; lia.
  - destruct (Ascii.eqb c nl); simpl; [specialize (IH []); simpl in IH; lia|].
    specialize (IH (c :: cur)). simpl in IH. lia.
Qed.

Lemma lines_aux_sum (s cur : list ascii) :
  (list_sum (map (@List.length _) (lines_aux s cur)) <= List.length s + List.length cur)%nat.
Proof.
  revert cur. induction s as [|c s IH]; intros cur; simpl.
  - destruct cur; simpl; [lia|]. rewrite length_app, length_rev. simpl. lia.
  - destruct (Ascii.eqb c nl); simpl.
    + pose proof (length_closed_piece cur). specialize (IH []). simpl in IH. lia.
    + specialize (IH (c :: cur)). simpl in IH. lia.
Qed.

Lemma in_list_sum (ls : list (list ascii)) (l : list ascii) :
  In l ls -> (List.length l <= list_sum (map (@List.length _) ls))%nat.
Proof.
  induction ls as [|l' ls IH]; simpl; [tauto|]. intros [<-|Hin]; [lia|]. specialize (IH Hin). lia.
Qed.

Lemma map_collect_forall2 {A B : Type} (f : A -> Exec B) (l : list A) : forall bs,
  map_collect f l = Done bs -> Forall2 (fun a b => f a = Done b) l bs.
Proof.
  induction l as [|a l IH]; intros bs; simpl; [intros [= <-]; constructor|].
  destruct (f a) as [b| |] eqn:Fa; simpl; try discriminate.
  destruct (map_collect f l) as [bs'| |] eqn:M; simpl; try discriminate.
  intros [= <-]. constructor; [exact Fa|apply IH; reflexivity].
Qed.

Lemma forall2_nth {A B : Type} (R : A -> B -> Prop) (l1 : list A) (l2 : list B) :
  Forall2 R l1 l2 -> forall n a, nth_error l1 n = Some a ->
  exists b, nth_error l2 n = Some b /\ R a b.
Proof.
  induction 1 as [|a b l1 l2 Hab _ IH]; intros n a' Hn; [destruct n; discriminate|].
  destruct n as [|n]; simpl in Hn; [injection Hn as <-; exists b; auto|].
  exact (IH n a' Hn).
Qed.

Lemma forall2_nth_r {A B : Type} (R : A -> B -> Prop) (l1 : list A) (l2 : list B) :
  Forall2 R l1 l2 -> forall n b, nth_error l2 n = Some b ->
  exists a, nth_error l1 n = Some a /\ R a b.
Proof.
  induction 1 as [|a b l1 l2 Hab _ IH]; intros n b' Hn; [destruct n; discriminate|].
  destruct n as [|n]; simpl in Hn; [injection Hn as <-; exists a; auto|].
  exact (IH n b' Hn).
Qed.

Lemma find_index_some (t : ascii) (l : list ascii) : forall i n,
  find_index t l i = Some n ->
  (i <= n)%nat /\ nth_error l (n - i) = Some t
  /\ forall m, (m < n - i)%nat -> nth_error l m <> Some t.
Proof.
  induction l as [|c l IH]; intros i n; simpl; [discriminate|].
  destruct (Ascii.eqb c t) eqn:E.
  - intros [= <-]. apply Ascii.eqb_eq in E. subst. rewrite Nat.sub_diag.
    split; [lia|]. split; [reflexivity|]. intros m Hm. lia.
  - intros H. destruct (IH (S i) n H) as (Hi & Hn & Hm).
    apply Ascii.eqb_neq in E.
    split; [lia|]. split; [replace (n - i)%nat with (S (n - S i)) by lia; exact Hn|].
    intros [|m] Hlt; simpl; [congruence|]. apply Hm. lia.
Qed.

Lemma find_player_some (rows : list (list ascii)) : forall j p,
  find_player rows j = Some p ->
  exists k row i, nth_error rows k = Some row /\ find_index "R" row 0 = Some i
    /\ p = mkPlayer (Z.of_nat i) (Z.of_nat (j + k))
    /\ forall k' row', (k' < k)%nat -> nth_error rows k' = Some row' -> ~ In "R"%char row'.
Proof.
  induction rows as [|r rows IH]; intros j p; simpl; [discriminate|].
  destruct (find_index "R" r 0) as [i|] eqn:E.
  - intros [= <-]. exists 0%nat, r, i. rewrite Nat.add_0_r.
    split; [reflexivity|]. split; [exact E|]. split; [reflexivity|]. intros k' row' Hk. lia.
  - intros H. destruct (IH (S j) p H) as (k & row & i & Hk & Hi & -> & Hbefore).
    exists (S k), row, i. split; [exact Hk|]. split; [exact Hi|].
    split; [f_equal; f_equal; lia|].
    intros [|k'] row' Hlt Hrow; simpl in Hrow.
    + injection Hrow as <-. apply (find_index_none _ _ 0). exact E.
    + apply (Hbefore k'); [lia|exact Hrow].
Qed.

Lemma Board_parse_shape (s : string) (b : Board) :
  Board_parse s = Done (Ok b) ->
  exists l rest, lines s = l :: rest /\ find_index "x" l 0 = Some (exit b)
    /\ Forall2 (fun line row => map_collect parse_tile line = Done row) rest (tiles b).
Proof.
  unfold Board_parse. destruct (lines s) as [|l rest]; [discriminate|].
  destruct (find_index "x" l 0) as [e|] eqn:E; [|discriminate].
  unfold bind.
  destruct (map_collect (map_collect parse_tile) rest) as [ts| |] eqn:M; try discriminate.
  intros [= <-]. exists l, rest. simpl. split; [reflexivity|]. split; [exact E|].
  apply map_collect_forall2. exact M.
Qed.

Lemma Board_parse_not_nofuel (s : string) : Board_parse s <> NoFuel.
Proof.
  unfold Board_parse. destruct (lines s) as [|l rest]; [discriminate|].
  destruct (find_index "x" l 0); [|discriminate].
  pose proof (map_collect_not_nofuel (map_collect parse_tile) rest
                (fun row => map_collect_not_nofuel parse_tile row parse_tile_not_nofuel)) as H.
  unfold bind. destruct (map_collect (map_collect parse_tile) rest); [discriminate|discriminate|contradiction].
Qed.

(** A parsed board fits the input: it has at most as many rows, and as many
    cells in all, as the input has bytes. *)
Lemma parsed_board_size (s : string) (b : Board) :
  Board_parse s = Done (Ok b) ->
  (List.length (tiles b) <= String.length s)%nat
  /\ (forall r, In r (tiles b) -> List.length r <= String.length s)%nat
  /\ (List.length (cells b) <= String.length s)%nat.
Proof.
  intros Hp. destruct (Board_parse_shape s b Hp) as (l & rest & Hl & _ & F).
  pose proof (lines_aux_count (list_ascii_of_string s) []) as Hc.
  pose proof (lines_aux_sum (list_ascii_of_string s) []) as Hs.
  fold (lines s) in Hc, Hs. rewrite Hl, length_list_ascii in Hc, Hs. simpl in Hc, Hs.
  assert (Hrow : forall line row, map_collect parse_tile line = Done row ->
                   List.length row = List.length line)
    by (intros line row M; symmetry; exact (Forall2_length (map_collect_forall2 _ _ _ M))).
  split; [|split].
  - rewrite <- (Forall2_length F). simpl in Hc. lia.
  - intros r Hr. apply In_nth_error in Hr as [n Hn].
    destruct (forall2_nth_r _ _ _ F n r Hn) as (line & Hline & M).
    rewrite (Hrow _ _ M). pose proof (in_list_sum rest line (nth_error_In _ _ Hline)). lia.
  - rewrite length_cells.
    assert (E : list_sum (map (@List.length _) (tiles b)) = list_sum (map (@List.length _) rest)).
    { clear Hl Hc Hs. induction F as [|line row rest' rows' M _ IH]; [reflexivity|].
      simpl. rewrite IH, (Hrow _ _ M). reflexivity. }
    rewrite E. lia.
Qed.

Lemma parsed_board_ok (s : string) (b : Board) :
  Board_parse s = Done (Ok b) -> Z.of_nat (String.length s) < 2 ^ 63 -> board_ok b.
Proof.
  intros Hp Hlen. destruct (parsed_board_size s b Hp) as (Hr & Hc & _).
  split; [lia|]. intros r Hin. specialize (Hc r Hin). lia.
Qed.

(** The start position found by [Player::parse] is a cell of the board
    parsed from the same text, and that cell holds [Tile::None]. *)
Lemma parsed_start_cell (s : string) (b : Board) (p : Player) :
  Board_parse s = Done (Ok b) -> Player_parse s = Ok p ->
  in_grid b p = true
  /\ exists r, nth_error (tiles b) (Z.to_nat (y p)) = Some r
       /\ nth_error r (Z.to_nat (x p)) = Some Tile.None.
Proof.
  intros Hb Hp. destruct (Board_parse_shape s b Hb) as (l & rest & Hl & _ & F).
  unfold Player_parse in Hp. rewrite Hl in Hp. simpl in Hp.
  destruct (find_player rest 0) as [p'|] eqn:E; [|discriminate]. injection Hp as <-.
  destruct (find_player_some rest 0 p' E) as (k & row & i & Hk & Hi & -> & _).
  destruct (find_index_some _ _ _ _ Hi) as (_ & Hc & _). rewrite Nat.sub_0_r in Hc.
  destruct (forall2_nth _ _ _ F k row Hk) as (r & Hr & M).
  pose proof (map_collect_forall2 _ _ _ M) as Fr.
  destruct (forall2_nth _ _ _ Fr i "R"%char Hc) as (t & Ht & Pt).
  simpl in Pt. injection Pt as <-.
  assert (Hlt : (i < List.length r)%nat) by (apply nth_error_Some; rewrite Ht; discriminate).
  simpl. rewrite !Nat2Z.id. split.
  - apply in_grid_spec. simpl. rewrite Nat2Z.id. exists r. split; [exact Hr|lia].
  - exists r. auto.
Qed.

Lemma split_once_nn_parts (s a b : string) :
  split_once_nn s = Some (a, b) -> s = (a ++ String nl (String nl b))%string.
Proof.
  revert a b. induction s as [|c s IH]; intros a b; simpl; [discriminate|].
  destruct s as [|c' s'].
  - simpl. discriminate.
  - destruct (Ascii.eqb c nl && Ascii.eqb c' nl) eqn:E.
    + intros [= <- <-]. apply andb_true_iff in E as [E1 E2].
      apply Ascii.eqb_eq in E1, E2. subst. reflexivity.
    + destruct (split_once_nn (String c' s')) as [[a' b']|] eqn:S; [|discriminate].
      intros [= <- <-]. simpl. f_equal. apply IH. reflexivity.
Qed.

Lemma Board_parse_err (s : string) (e : Error) :
  Board_parse s = Done (Err e) -> e = InputEmpty \/ e = NoExit.
Proof.
  unfold Board_parse. destruct (lines s) as [|l rest]; [intros [= <-]; auto|].
  destruct (find_index "x" l 0); [|intros [= <-]; auto].
  unfold bind. destruct (map_collect (map_collect parse_tile) rest); discriminate.
Qed.

Lemma Player_parse_err (s : string) (e : Error) : Player_parse s = Err e -> e = NoPlayer.
Proof. unfold Player_parse. destruct (find_player _ 0); [discriminate|intros [= <-]; reflexivity]. Qed.

(** ** The outcome of [solve_puzzle] *)

(** X9: [solve_puzzle] terminates on every input: with fuel at least the
    square of the input's length in bytes the model never runs out of fuel,
    so the result (a solution, an error or a panic) is the same for any
    larger fuel.  The two grids hold at most that many joint positions. *)
Theorem solve_puzzle_terminates (input : string) (fuel : nat) :
  Z.of_nat (String.length input) < 2 ^ 63 ->
  (String.length input * String.length input <= fuel)%nat ->
  solve_puzzle fuel input <> NoFuel
  /\ forall m, (fuel <= m)%nat -> solve_puzzle m input = solve_puzzle fuel input.
Proof.
  intros Hlen Hf. unfold solve_puzzle.
  destruct (split_once_nn input) as [[i1 i2]|] eqn:Sp;
    [|split; [discriminate|intros; reflexivity]].
  pose proof (split_once_nn_parts _ _ _ Sp) as Hs.
  assert (L1 : (String.length i1 <= String.length input)%nat)
    by (rewrite Hs, string_length_append; simpl; lia).
  assert (L2 : (String.length i2 <= String.length input)%nat)
    by (rewrite Hs, string_length_append; simpl; lia).
  pose proof (Board_parse_not_nofuel i1) as N1.
  destruct (Board_parse i1) as [[b1|e]|msg|] eqn:B1; simpl;
    [| split; [discriminate|intros; reflexivity]
     | split; [discriminate|intros; reflexivity] | contradiction].
  destruct (Player_parse i1) as [p1|e] eqn:P1; [|split; [discriminate|intros; reflexivity]].
  pose proof (Board_parse_not_nofuel i2) as N2.
  destruct (Board_parse i2) as [[b2|e]|msg|] eqn:B2; simpl;
    [| split; [discriminate|intros; reflexivity]
     | split; [discriminate|intros; reflexivity] | contradiction].
  destruct (Player_parse i2) as [p2|e] eqn:P2; [|split; [discriminate|intros; reflexivity]].
  assert (Hb1 : board_ok b1) by (apply (parsed_board_ok i1); [exact B1|lia]).
  assert (Hb2 : board_ok b2) by (apply (parsed_board_ok i2); [exact B2|lia]).
  destruct (parsed_start_cell i1 b1 p1 B1 P1) as [G1 _].
  destruct (parsed_start_cell i2 b2 p2 B2 P2) as [G2 _].
  destruct (parsed_board_size i1 b1 B1) as (_ & _ & C1).
  destruct (parsed_board_size i2 b2 B2) as (_ & _ & C2).
  assert (Hbound : (search_bound b1 b2 <= fuel)%nat).
  { unfold search_bound. transitivity (String.length input * String.length input)%nat; [|exact Hf].
    apply Nat.mul_le_mono; lia. }
  assert (Hn : solve fuel b1 p1 b2 p2 [(p1, p2)] [] <> NoFuel).
  { apply (solve_not_nofuel b1 b2 Hb1 Hb2); [exact G1|exact G2| | |].
    - constructor; [intros []|constructor].
    - intros s [<-|[]]. apply in_prod; apply in_cells; assumption.
    - simpl. lia. }
  split.
  - destruct (solve fuel b1 p1 b2 p2 [(p1, p2)] []) as [[h|]| |]; simpl; try discriminate.
    contradiction.
  - intros m Hm. rewrite (solve_fuel_mono fuel m b1 p1 b2 p2 _ _ Hm Hn). reflexivity.
Qed.

(** X10: [solve_puzzle] reports [NoSolution] only when there is none: if it
    returns [Err(NoSolution)], both boards parsed and no sequence of moves
    takes both tokens out on the same move with both staying on their boards
    before it.  The visited set only cuts loops, and a solution with a loop
    has a shorter one without it. *)
Theorem no_solution_complete (fuel : nat) (input : string) :
  solve_puzzle fuel input = Done (Err NoSolution) ->
  exists input1 input2 b1 p1 b2 p2,
    split_once_nn input = Some (input1, input2)
    /\ Board_parse input1 = Done (Ok b1) /\ Player_parse input1 = Ok p1
    /\ Board_parse input2 = Done (Ok b2) /\ Player_parse input2 = Ok p2
    /\ forall ds, replays b1 p1 b2 p2 ds = false.
Proof.
  unfold solve_puzzle.
  destruct (split_once_nn input) as [[input1 input2]|]; [|discriminate].
  destruct (Board_parse input1) as [[b1|e]| |] eqn:B1; simpl; try discriminate;
    [|intros [= ->]; destruct (Board_parse_err _ _ B1); discriminate].
  destruct (Player_parse input1) as [p1|e] eqn:P1;
    [|intros [= ->]; apply Player_parse_err in P1; discriminate].
  destruct (Board_parse input2) as [[b2|e]| |] eqn:B2; simpl; try discriminate;
    [|intros [= ->]; destruct (Board_parse_err _ _ B2); discriminate].
  destruct (Player_parse input2) as [p2|e] eqn:P2;
    [|intros [= ->]; apply Player_parse_err in P2; discriminate].
  destruct (solve fuel b1 p1 b2 p2 [(p1, p2)] []) as [[h|]| |] eqn:S; simpl; try discriminate.
  intros _. exists input1, input2, b1, p1, b2, p2.
  split; [reflexivity|]. do 4 (split; [assumption|]).
  intros ds. destruct (replays b1 p1 b2 p2 ds) eqn:R; [|reflexivity]. exfalso.
  destruct (replays_loop_free b1 b2 ds p1 p2 R) as (e & Re & ND).
  inversion ND as [|? ? Hnot ND']; subst.
  apply (solve_none_no_wins _ _ _ _ _ _ _ S ([] ++ e)).
  apply replays_wins; [exact Re|exact ND'|].
  intros s Hin [<-|[]]. exact (Hnot Hin).
Qed.

(** X11: a solution returned by [solve_puzzle] never passes twice through
    the same joint position of the two tokens, nor back through the start;
    every move but the last enters a joint position, so the solution is no
    longer than the number of joint positions of the two grids. *)
Theorem solution_loop_free (fuel : nat) (input : string) (h : list Dir) :
  solve_puzzle fuel input = Done (Ok h) ->
  exists input1 input2 b1 p1 b2 p2,
    split_once_nn input = Some (input1, input2)
    /\ Board_parse input1 = Done (Ok b1) /\ Player_parse input1 = Ok p1
    /\ Board_parse input2 = Done (Ok b2) /\ Player_parse input2 = Ok p2
    /\ NoDup ((p1, p2) :: trail b1 p1 b2 p2 h)
    /\ S (List.length (trail b1 p1 b2 p2 h)) = List.length h
    /\ (Z.of_nat (String.length input) < 2 ^ 63 -> (List.length h <= search_bound b1 b2)%nat).
Proof.
  unfold solve_puzzle.
  destruct (split_once_nn input) as [[input1 input2]|] eqn:Sp; [|discriminate].
  destruct (Board_parse input1) as [[b1|e]| |] eqn:B1; simpl; try discriminate.
  destruct (Player_parse input1) as [p1|e] eqn:P1; try discriminate.
  destruct (Board_parse input2) as [[b2|e]| |] eqn:B2; simpl; try discriminate.
  destruct (Player_parse input2) as [p2|e] eqn:P2; try discriminate.
  destruct (solve fuel b1 p1 b2 p2 [(p1, p2)] []) as [[h'|]| |] eqn:S; simpl; try discriminate.
  intros [= <-].
  pose proof (solve_some_wins _ _ _ _ _ _ _ _ S) as W.
  destruct (wins_loop_free b1 b2 _ _ _ _ _ W) as (ds & Hds & ND & Hdis). simpl in Hds. subst ds.
  destruct (wins_replays _ _ _ _ _ _ _ W) as (ds' & Hds' & R). simpl in Hds'. subst ds'.
  assert (ND0 : NoDup ((p1, p2) :: trail b1 p1 b2 p2 h')).
  { constructor; [|exact ND]. intros Hin. exact (Hdis _ Hin (or_introl eq_refl)). }
  pose proof (replays_trail_length b1 b2 h' p1 p2 R) as Hl.
  exists input1, input2, b1, p1, b2, p2.
  split; [reflexivity|]. do 4 (split; [assumption|]).
  split; [exact ND0|]. split; [exact Hl|].
  intros Hlen.
  pose proof (split_once_nn_parts _ _ _ Sp) as Hs.
  assert (L1 : (String.length input1 <= String.length input)%nat)
    by (rewrite Hs, string_length_append; simpl; lia).
  assert (L2 : (String.length input2 <= String.length input)%nat)
    by (rewrite Hs, string_length_append; simpl; lia).
  assert (Hb1 : board_ok b1) by (apply (parsed_board_ok input1); [exact B1|lia]).
  assert (Hb2 : board_ok b2) by (apply (parsed_board_ok input2); [exact B2|lia]).
  destruct (parsed_start_cell input1 b1 p1 B1 P1) as [G1 _].
  destruct (parsed_start_cell input2 b2 p2 B2 P2) as [G2 _].
  pose proof (NoDup_incl_length ND0 (trail_in_grid b1 b2 h' p1 p2 Hb1 Hb2 G1 G2)) as Hinc.
  rewrite length_prod in Hinc. unfold search_bound. simpl in Hinc. lia.
Qed.

(** ** Splitting the input *)

(** X1: [split_once("\n\n")] splits at the first blank line: the input is
    the first part, two ['\n'], then the second part, and the first part
    holds no two consecutive ['\n'] and does not end with one, so no earlier
    ["\n\n"] exists. *)
Theorem split_once_first (s a b : string) :
  split_once_nn s = Some (a, b) ->
  s = (a ++ String nl (String nl b))%string
  /\ forall i, (i < String.length a)%nat ->
       ~ (String.get i s = Some nl /\ String.get (S i) s = Some nl).
Proof.
  intros H. split; [exact (split_once_nn_parts s a b H)|].
  revert a b H. induction s as [|c s IH]; intros a b; simpl; [discriminate|].
  destruct s as [|c' s']; [simpl; discriminate|].
  destruct (Ascii.eqb c nl && Ascii.eqb c' nl) eqn:E.
  - intros [= <- <-]. simpl. intros i Hi. lia.
  - destruct (split_once_nn (String c' s')) as [[a' b']|] eqn:S; [|discriminate].
    intros [= <- <-]. intros [|i] Hi [G1 G2]; simpl in Hi, G1, G2.
    + injection G1 as ->. injection G2 as ->. rewrite Ascii.eqb_refl in E. discriminate.
    + apply (IH a' b' eq_refl i); [lia|split; assumption].
Qed.

Lemma lines_aux_no_nl (a s cur : list ascii) :
  ~ In nl a -> lines_aux (a ++ s) cur = lines_aux s (rev a ++ cur).
Proof.
  revert cur. induction a as [|c a IH]; intros cur Hn; [reflexivity|].
  simpl. assert (E : Ascii.eqb c nl = false)
    by (apply Ascii.eqb_neq; intros ->; apply Hn; left; reflexivity).
  rewrite E, IH by (intros H; apply Hn; right; exact H).
  rewrite <- app_assoc. reflexivity.
Qed.

Lemma closed_piece_no_cr (a : list ascii) :
  ~ In cr a ->
  match rev a with
  | c0 :: cur' => if Ascii.eqb c0 cr then rev cur' else rev (rev a)
  | [] => []
  end = a.
Proof.
  intros Hn. destruct (rev a) as [|c0 cur'] eqn:E.
  - rewrite <- (rev_involutive a), E. reflexivity.
  - assert (Hc : Ascii.eqb c0 cr = false).
    { apply Ascii.eqb_neq. intros ->. apply Hn. apply in_rev. rewrite E. left. reflexivity. }
    rewrite Hc, <- E, rev_involutive. reflexivity.
Qed.

(** X2: [str::lines] undoes joining with ['\n']: lines without ['\n'] or
    ['\r'], the last of them not empty, joined with ['\n'], are split back
    into the same lines. *)
Theorem lines_join_lines (ls : list string) :
  (forall l, In l ls -> ~ In nl (list_ascii_of_string l) /\ ~ In cr (list_ascii_of_string l)) ->
  last ls EmptyString <> EmptyString ->
  lines (join_lines ls) = map list_ascii_of_string ls.
Proof.
  induction ls as [|a ls IH]; intros Hok Hlast; [contradiction|].
  destruct (Hok a (or_introl eq_refl)) as [Hnl Hcr].
  unfold lines, join_lines in *.
  destruct ls as [|a2 ls].
  - simpl String.concat. rewrite <- (app_nil_r (list_ascii_of_string a)).
    rewrite lines_aux_no_nl by exact Hnl. rewrite app_nil_r.
    simpl. simpl in Hlast.
    destruct (rev (list_ascii_of_string a)) as [|c cur] eqn:E.
    + exfalso. apply Hlast. destruct a as [|c0 a0]; [reflexivity|].
      simpl in E. apply app_eq_nil in E as [_ E]. discriminate.
    + rewrite <- E, rev_involutive. reflexivity.
  - change (String.concat (String nl EmptyString) (a :: a2 :: ls))
      with (a ++ String nl EmptyString ++ String.concat (String nl EmptyString) (a2 :: ls))%string.
    rewrite !list_ascii_append. simpl list_ascii_of_string at 2.
    rewrite lines_aux_no_nl by exact Hnl. simpl.
    rewrite app_nil_r, (closed_piece_no_cr _ Hcr).
    f_equal. apply IH; [intros l Hl; apply Hok; right; exact Hl|exact Hlast].
Qed.

(** ** What the parsers produce *)

(** X3: a board parsed by [Board::parse] has one row per line after the
    first, and row [j] has one tile per character of line [j]: the tile
    [parse_tile] gives for that character ('.' and 'R' give [None]).  No cell
    holds [Exit].  The exit column is the byte index of the first 'x' of the
    first line. *)
Theorem Board_parse_layout (s : string) (b : Board) :
  Board_parse s = Done (Ok b) ->
  exists l rest, lines s = l :: rest
    /\ nth_error l (exit b) = Some "x"%char
    /\ (forall i, (i < exit b)%nat -> nth_error l i <> Some "x"%char)
    /\ List.length (tiles b) = List.length rest
    /\ (forall j line, nth_error rest j = Some line ->
          exists row, nth_error (tiles b) j = Some row /\ List.length row = List.length line
            /\ forall i c, nth_error line i = Some c ->
                 exists t, parse_tile c = Done t /\ nth_error row i = Some t)
    /\ (forall r, In r (tiles b) -> ~ In Tile.Exit r).
Proof.
  intros Hp. destruct (Board_parse_shape s b Hp) as (l & rest & Hl & He & F).
  destruct (find_index_some _ _ _ _ He) as (_ & Hx & Hfirst).
  rewrite Nat.sub_0_r in Hx, Hfirst.
  exists l, rest. split; [exact Hl|]. split; [exact Hx|]. split; [exact Hfirst|].
  split; [symmetry; exact (Forall2_length F)|]. split.
  - intros j line Hj. destruct (forall2_nth _ _ _ F j line Hj) as (row & Hrow & M).
    pose proof (map_collect_forall2 _ _ _ M) as Fr.
    exists row. split; [exact Hrow|]. split; [symmetry; exact (Forall2_length Fr)|].
    intros i c Hc. destruct (forall2_nth _ _ _ Fr i c Hc) as (t & Ht & Pt). eauto.
  - intros r Hr HE. apply In_nth_error in Hr as [j Hj].
    destruct (forall2_nth_r _ _ _ F j r Hj) as (line & _ & M).
    apply In_nth_error in HE as [i Hi].
    destruct (forall2_nth_r _ _ _ (map_collect_forall2 _ _ _ M) i _ Hi) as (c & _ & Pc).
    destruct (tile_char c) eqn:Tc.
    + clear -Pc. destruct c as [[] [] [] [] [] [] [] []]; discriminate.
    + rewrite (proj2 (parse_tile_spec c) Tc) in Pc. discriminate.
Qed.

(** X4: [Player::parse] finds the first 'R' in row-major order among the
    lines after the first: [y] counts lines from the second one, [x] is the
    byte index in that line, no earlier line holds an 'R', and no earlier
    byte of that line is an 'R'. *)
Theorem Player_parse_first_R (s : string) (p : Player) :
  Player_parse s = Ok p ->
  0 <= x p /\ 0 <= y p
  /\ exists row, nth_error (tl (lines s)) (Z.to_nat (y p)) = Some row
    /\ nth_error row (Z.to_nat (x p)) = Some "R"%char
    /\ (forall i, (i < Z.to_nat (x p))%nat -> nth_error row i <> Some "R"%char)
    /\ (forall j row', (j < Z.to_nat (y p))%nat -> nth_error (tl (lines s)) j = Some row' ->
          ~ In "R"%char row').
Proof.
  unfold Player_parse. destruct (find_player (tl (lines s)) 0) as [p'|] eqn:E; [|discriminate].
  intros [= <-].
  destruct (find_player_some _ 0 p' E) as (k & row & i & Hk & Hi & -> & Hbefore).
  destruct (find_index_some _ _ _ _ Hi) as (_ & Hc & Hfirst). rewrite Nat.sub_0_r in Hc, Hfirst.
  simpl. rewrite !Nat2Z.id. split; [lia|]. split; [lia|].
  exists row. auto.
Qed.

Lemma get_tile_cell (b : Board) (p : Player) (r : list Tile.t) (t : Tile.t) :
  board_ok b -> rectangular b ->
  nth_error (tiles b) (Z.to_nat (y p)) = Some r -> 0 <= y p -> 0 <= x p ->
  nth_error r (Z.to_nat (x p)) = Some t -> get_tile b p = Done t.
Proof.
  intros [Hlen Hrows] Hrect Hr Hy Hx Ht.
  assert (Hy' : (Z.to_nat (y p) < List.length (tiles b))%nat)
    by (apply nth_error_Some; rewrite Hr; discriminate).
  assert (Hx' : (Z.to_nat (x p) < List.length r)%nat)
    by (apply nth_error_Some; rewrite Ht; discriminate).
  pose proof (Hrows r (nth_error_In _ _ Hr)) as Hrl.
  pose proof (Hrect r (nth_error_In _ _ Hr)) as Hre.
  unfold get_tile.
  replace (y p =? -1) with false by (symmetry; apply Z.eqb_neq; lia).
  replace (y p =? Z.of_nat (List.length (tiles b))) with false by (symmetry; apply Z.eqb_neq; lia).
  replace (x p =? -1) with false by (symmetry; apply Z.eqb_neq; lia).
  destruct (tiles b) as [|row0 rest] eqn:Et; [simpl in Hy'; lia|].
  simpl in Hre. rewrite <- Hre.
  replace (x p =? Z.of_nat (List.length r)) with false by (symmetry; apply Z.eqb_neq; lia).
  rewrite <- Et in Hy', Hlen, Hr |- *. rewrite !usize_of_isize_nonneg by lia.
  unfold vec_get.
  replace ((0 <=? y p) && (y p <? Z.of_nat (List.length (tiles b)))) with true
    by (symmetry; apply andb_true_iff; split; [apply Z.leb_le|apply Z.ltb_lt]; lia).
  rewrite Hr.
  replace ((0 <=? x p) && (x p <? Z.of_nat (List.length r))) with true
    by (symmetry; apply andb_true_iff; split; [apply Z.leb_le|apply Z.ltb_lt]; lia).
  rewrite Ht. reflexivity.
Qed.

(** X5: the start position read by [Player::parse] is a cell of the board
    read by [Board::parse] from the same text, and that cell is floor
    ([Tile::None]); on a rectangular board [Board::get_tile] returns [None]
    there. *)
Theorem start_on_floor (s : string) (b : Board) (p : Player) :
  Board_parse s = Done (Ok b) -> Player_parse s = Ok p ->
  in_grid b p = true
  /\ (exists r, nth_error (tiles b) (Z.to_nat (y p)) = Some r
        /\ nth_error r (Z.to_nat (x p)) = Some Tile.None)
  /\ (rectangular b -> Z.of_nat (String.length s) < 2 ^ 63 -> get_tile b p = Done Tile.None).
Proof.
  intros Hb Hp. destruct (parsed_start_cell s b p Hb Hp) as [G (r & Hr & Ht)].
  split; [exact G|]. split; [exists r; auto|].
  intros Hrect Hlen.
  apply in_grid_spec in G as (r' & Hr' & Hy & Hx).
  exact (get_tile_cell b p r Tile.None (parsed_board_ok s b Hb Hlen) Hrect Hr Hy (proj1 Hx) Ht).
Qed.

(** ** Pairs of teleports *)

Lemma NoDup_flat_map_keyed {A : Type} (key : Player -> Z) (F : nat -> A -> list Player) :
  (forall n a q, In q (F n a) -> key q = Z.of_nat n) -> (forall n a, NoDup (F n a)) ->
  forall l k, NoDup (flat_map (fun '(n, a) => F n a) (combine (seq k (List.length l)) l)).
Proof.
  intros Hkey Hnd. induction l as [|a l IH]; intros k; simpl; [constructor|].
  apply NoDup_app; [apply Hnd|apply IH|].
  intros q Hq Hin. apply in_flat_map in Hin as ([n a'] & Hn & Hq').
  apply in_combine_seq in Hn as [Hk _].
  apply Hkey in Hq, Hq'. lia.
Qed.

Lemma teleport_cells_NoDup (b : Board) : NoDup (teleport_cells b).
Proof.
  unfold teleport_cells, enumerate.
  apply (NoDup_flat_map_keyed y
           (fun j row => flat_map (fun '(i, t) =>
                                     if Tile.eqb t Tile.Teleport
                                     then [mkPlayer (Z.of_nat i) (Z.of_nat j)] else [])
                                  (combine (seq 0 (List.length row)) row))).
  - intros j row q Hq. apply in_flat_map in Hq as ([i t] & _ & Hq).
    destruct (Tile.eqb t Tile.Teleport); [destruct Hq as [<-|[]]; reflexivity|contradiction].
  - intros j row.
    apply (NoDup_flat_map_keyed x
             (fun i t => if Tile.eqb t Tile.Teleport
                         then [mkPlayer (Z.of_nat i) (Z.of_nat j)] else [])).
    + intros i t q Hq.
      destruct (Tile.eqb t Tile.Teleport); [destruct Hq as [<-|[]]; reflexivity|contradiction].
    + intros i t. destruct (Tile.eqb t Tile.Teleport); [constructor; [intros []|constructor]|constructor].
Qed.

Lemma teleport_from_cell (b : Board) (t : Player) :
  board_ok b -> rectangular b -> In t (teleport_cells b) ->
  teleport t b = match filter (fun q => negb (player_eqb q t)) (teleport_cells b) with
                 | q :: _ => Done q
                 | [] => Panic "No second teleport tile found"
                 end.
Proof.
  intros Hb Hrect Ht.
  destruct (teleport_cells_in b t Ht) as (r & Hr & Htp & Hx & Hy).
  pose proof (in_grid_bounds b t Hb (teleport_cells_in_grid b t Ht)) as Hbd.
  apply teleport_first_other_lemma; [exact Hb|unfold isize_ok; lia|].
  exact (get_tile_cell b t r Tile.Teleport Hb Hrect Hr Hy Hx Htp).
Qed.

(** X12: on a rectangular board with exactly two teleport cells, the two are
    linked both ways: a token entering either one is taken to the other. *)
Theorem teleport_pair (b : Board) (t1 t2 : Player) :
  board_ok b -> rectangular b -> teleport_cells b = [t1; t2] ->
  teleport t1 b = Done t2 /\ teleport t2 b = Done t1.
Proof.
  intros Hb Hrect Hc.
  pose proof (teleport_cells_NoDup b) as ND. rewrite Hc in ND.
  inversion ND as [|? ? H12 _]; subst.
  assert (Hne : player_eqb t2 t1 = false).
  { destruct (player_eqb t2 t1) eqn:E; [|reflexivity].
    apply player_eqb_eq in E. subst. exfalso. apply H12. left. reflexivity. }
  assert (Hne' : player_eqb t1 t2 = false).
  { destruct (player_eqb t1 t2) eqn:E; [|reflexivity].
    apply player_eqb_eq in E. subst. exfalso. apply H12. left. reflexivity. }
  assert (Hrefl : forall q, player_eqb q q = true) by (intros q; apply player_eqb_eq; reflexivity).
  split.
  - rewrite (teleport_from_cell b t1 Hb Hrect ltac:(rewrite Hc; left; reflexivity)), Hc.
    simpl. rewrite Hrefl, Hne. reflexivity.
  - rewrite (teleport_from_cell b t2 Hb Hrect ltac:(rewrite Hc; right; left; reflexivity)), Hc.
    simpl. rewrite Hrefl, Hne'. reflexivity.
Qed.

(** ** Witnesses for the further properties *)

Lemma split_once_first_witness :
  split_once_nn test_simple = Some (simple_text, join_lines [" x"; "..."; "..."; "..R"]%string)
  /\ test_simple = (simple_text ++ String nl (String nl (join_lines [" x"; "..."; "..."; "..R"]%string)))%string
  /\ forall i, (i < String.length simple_text)%nat ->
       ~ (String.get i test_simple = Some nl /\ String.get (S i) test_simple = Some nl).
Proof.
  split; [vm_compute; reflexivity|].
  apply split_once_first. vm_compute. reflexivity.
Defined.

Lemma lines_join_lines_witness :
  lines simple_text = map list_ascii_of_string [" x"; "..."; "..."; ".R."]%string.
Proof.
  apply lines_join_lines; [|discriminate].
  intros l Hl. simpl in Hl.
  repeat (destruct Hl as [<-|Hl]; [split; intros H; simpl in H;
                                   repeat (destruct H as [H|H]; [discriminate H|]); exact H|]).
  contradiction.
Defined.

Lemma Board_parse_layout_witness :
  exists l rest, lines simple_text = l :: rest
    /\ nth_error l (exit simple_b1) = Some "x"%char
    /\ (forall i, (i < exit simple_b1)%nat -> nth_error l i <> Some "x"%char)
    /\ List.length (tiles simple_b1) = List.length rest
    /\ (forall j line, nth_error rest j = Some line ->
          exists row, nth_error (tiles simple_b1) j = Some row
            /\ List.length row = List.length line
            /\ forall i c, nth_error line i = Some c ->
                 exists t, parse_tile c = Done t /\ nth_error row i = Some t)
    /\ (forall r, In r (tiles simple_b1) -> ~ In Tile.Exit r).
Proof. apply Board_parse_layout. vm_compute. reflexivity. Defined.

Lemma Player_parse_first_R_witness :
  0 <= x simple_p1 /\ 0 <= y simple_p1
  /\ exists row, nth_error (tl (lines simple_text)) (Z.to_nat (y simple_p1)) = Some row
    /\ nth_error row (Z.to_nat (x simple_p1)) = Some "R"%char
    /\ (forall i, (i < Z.to_nat (x simple_p1))%nat -> nth_error row i <> Some "R"%char)
    /\ (forall j row', (j < Z.to_nat (y simple_p1))%nat ->
          nth_error (tl (lines simple_text)) j = Some row' -> ~ In "R"%char row').
Proof. apply Player_parse_first_R. vm_compute. reflexivity. Defined.

Lemma start_on_floor_witness :
  in_grid simple_b1 simple_p1 = true
  /\ (exists r, nth_error (tiles simple_b1) (Z.to_nat (y simple_p1)) = Some r
        /\ nth_error r (Z.to_nat (x simple_p1)) = Some Tile.None)
  /\ (rectangular simple_b1 -> Z.of_nat (String.length simple_text) < 2 ^ 63 ->
      get_tile simple_b1 simple_p1 = Done Tile.None).
Proof. apply (start_on_floor simple_text); vm_compute; reflexivity. Defined.

Lemma apply_stays_in_grid_witness :
  apply Right ice_b1 (mkPlayer 0 1) = Done (Just (mkPlayer 1 1))
  /\ in_grid ice_b1 (mkPlayer 1 1) = true.
Proof.
  split; [vm_compute; reflexivity|].
  apply (apply_stays_in_grid ice_b1 Right (mkPlayer 0 1)); [concrete_bounds| |];
    vm_compute; reflexivity.
Defined.

Lemma exit_only_upward_witness :
  apply Up simple_b1 (mkPlayer 1 0) = Done Success
  /\ Up = Up /\ x (mkPlayer 1 0) = Z.of_nat (exit simple_b1).
Proof.
  split; [vm_compute; reflexivity|].
  apply exit_only_upward; [concrete_bounds| | |vm_compute; reflexivity].
  - intros r Hr. simpl in Hr.
    repeat (destruct Hr as [<-|Hr];
            [intros H; simpl in H; repeat (destruct H as [H|H]; [discriminate H|]); exact H|]).
    contradiction.
  - vm_compute. reflexivity.
Defined.

Lemma solve_terminates_witness :
  solve (search_bound simple_b1 simple_b2) simple_b1 simple_p1 simple_b2 simple_p2
        [(simple_p1, simple_p2)] [] <> NoFuel
  /\ forall m, (search_bound simple_b1 simple_b2 <= m)%nat ->
       solve m simple_b1 simple_p1 simple_b2 simple_p2 [(simple_p1, simple_p2)] []
       = solve (search_bound simple_b1 simple_b2) simple_b1 simple_p1 simple_b2 simple_p2
               [(simple_p1, simple_p2)] [].
Proof.
  apply solve_terminates; [concrete_bounds|concrete_bounds|vm_compute; reflexivity
                          |vm_compute; reflexivity|apply Nat.le_refl].
Defined.

Lemma solve_puzzle_terminates_witness :
  solve_puzzle 900 test_simple <> NoFuel
  /\ forall m, (900 <= m)%nat -> solve_puzzle m test_simple = solve_puzzle 900 test_simple.
Proof.
  apply solve_puzzle_terminates; [vm_compute; reflexivity|].
  apply Nat.leb_le. vm_compute. reflexivity.
Defined.

Lemma no_solution_complete_witness :
  solve_puzzle 100 unsolvable = Done (Err NoSolution)
  /\ exists input1 input2 b1 p1 b2 p2,
    split_once_nn unsolvable = Some (input1, input2)
    /\ Board_parse input1 = Done (Ok b1) /\ Player_parse input1 = Ok p1
    /\ Board_parse input2 = Done (Ok b2) /\ Player_parse input2 = Ok p2
    /\ forall ds, replays b1 p1 b2 p2 ds = false.
Proof.
  split; [vm_compute; reflexivity|].
  apply (no_solution_complete 100). vm_compute. reflexivity.
Defined.

Lemma solution_loop_free_witness :
  let h := [Up; Up; Right; Down; Down; Left; Up; Up; Up] in
  solve_puzzle 100 test_simple = Done (Ok h)
  /\ exists input1 input2 b1 p1 b2 p2,
    split_once_nn test_simple = Some (input1, input2)
    /\ Board_parse input1 = Done (Ok b1) /\ Player_parse input1 = Ok p1
    /\ Board_parse input2 = Done (Ok b2) /\ Player_parse input2 = Ok p2
    /\ NoDup ((p1, p2) :: trail b1 p1 b2 p2 h)
    /\ S (List.length (trail b1 p1 b2 p2 h)) = List.length h
    /\ (Z.of_nat (String.length test_simple) < 2 ^ 63 ->
        (List.length h <= search_bound b1 b2)%nat).
Proof.
  intros h. split; [vm_compute; reflexivity|].
  apply (solution_loop_free 100). vm_compute. reflexivity.
Defined.

Lemma teleport_pair_witness :
  teleport (mkPlayer 0 0) two_teleports = Done (mkPlayer 2 0)
  /\ teleport (mkPlayer 2 0) two_teleports = Done (mkPlayer 0 0).
Proof.
  apply teleport_pair; [concrete_bounds|concrete_bounds|vm_compute; reflexivity].
Defined.
